(** * workbox-routing: the Router class

    A shallow embedding of [packages/workbox-routing/src/Router.ts] and the
    properties of its route table, its matching loop, its request handling
    and its cache-priming message listener.

    Conventions of the embedding.
    - Route objects live in a store and are named by their reference
      ([loc]); the router's arrays hold references, so that [indexOf]
      compares identities, as [===] does on objects.
    - The methods of the class run in a state-and-exception monad over the
      router's fields and a log of the calls the router makes to its
      collaborators (match callbacks, handlers, the message event).
    - Time is logical: every logged call carries the tick of the event loop
      at which it happens, and a promise is described by the tick at which
      it settles, if it ever does.
    - Diagnostic code ([process.env.NODE_ENV !== 'production'] blocks:
      assertions and logging) is left out; it never changes control flow of
      well-typed calls. *)

From Stdlib Require Import ZArith Lia.
From stdpp Require Import base option list strings gmap.


(** ** JavaScript values *)

(** The values a match callback may return and a promise may settle with. *)
#[warnings="-register-all"]
Inductive JsVal : Type :=
| VUndefined
| VNull
| VBool (b : bool)
| VNum (n : Z)
| VNaN
| VStr (s : string)
| VArray (elems : list JsVal)
| VObject (props : list (string * JsVal)) (* plain object, own enumerable properties *)
| VInstance (cls : string)                 (* object of another class *)
| VWorkboxError (errorCode : string) (details : list (string * string)).

(** ToBoolean. *)
Definition truthy (v : JsVal) : bool :=
  match v with
  | VUndefined | VNull | VNaN => false
  | VBool b => b
  | VNum n => negb (n =? 0)%Z
  | VStr s => negb (String.eqb s "")
  | VArray _ | VObject _ | VInstance _ | VWorkboxError _ _ => true
  end.

Definition Array_isArray (v : JsVal) : bool :=
  match v with VArray _ => true | _ => false end.

(** [v.length] of an array, as far as the router reads it. *)
Definition Array_length (v : JsVal) : Z :=
  match v with VArray elems => Z.of_nat (length elems) | _ => 0 end.

(** [v.constructor === Object]. *)
Definition constructor_is_Object (v : JsVal) : bool :=
  match v with VObject _ => true | _ => false end.

Definition Object_keys (v : JsVal) : list string :=
  match v with VObject props => props.*1 | _ => [] end.

(** ** Platform objects *)

Record URL := { protocol : string; href : string }.

Module Request.
Record t := { url : string; method : string }.
End Request.
Abbreviation Request := Request.t.

Record RequestInit := { init_method : option string; init_mode : option string }.

(** An [ExtendableEvent] (a [FetchEvent], usually) is opaque to the router. *)
Definition ExtendableEvent := nat.
Definition MessagePort := nat.

(** [string | [string, RequestInit?]]. *)
Inductive RequestArgs :=
| EntryString (s : string)
| EntryArray (s : string) (init : option RequestInit).

(** [event.data] of a cache-priming message; [urlsToCache] is
    [payload.urlsToCache]. *)
Record CacheURLsMessageData := {
  type : string;
  urlsToCache : list RequestArgs
}.

Record ExtendableMessageEvent := {
  data : option CacheURLsMessageData;
  ports : list MessagePort
}.

(** ** Promises in logical time *)

Inductive Settled :=
| Fulfilled (v : JsVal)
| Rejected (err : JsVal).

(** A promise either stays pending for ever or settles at tick [t]. *)
Inductive Promise :=
| Pending
| SettlesAt (t : nat) (s : Settled).

Definition Promise_reject (now : nat) (err : JsVal) : Promise :=
  SettlesAt now (Rejected err).

(** A promise resolved at tick [now] with [x]: [None] is a value that is
    not a promise ([undefined]); a promise is followed, and the result
    settles when that promise does, not before [now]. *)
Definition Promise_resolve (now : nat) (x : option Promise) : Promise :=
  match x with
  | None => SettlesAt now (Fulfilled VUndefined)
  | Some Pending => Pending
  | Some (SettlesAt t s) => SettlesAt (now `max` t) s
  end.

(** ** Routes and handlers *)

(** The argument of [route.match]: [{url, request, event}]. *)
Record MatchOptions := {
  mo_url : URL;
  mo_request : Request;
  mo_event : option ExtendableEvent
}.

(** The argument of [handler.handle]: [{url, request, event, params}]. *)
Record HandlerOptions := {
  ho_url : URL;
  ho_request : Request;
  ho_event : option ExtendableEvent;
  ho_params : option JsVal
}.

(** What a call of [handle] does at the call site: it throws, or it returns
    a value, [None] standing for a falsy one ([undefined]). *)
Inductive HandleOutcome :=
| Throws (err : JsVal)
| Returns (p : option Promise).

(** A handler object; [handle] receives the tick of the call. *)
Record Handler := { handle : nat -> HandlerOptions -> HandleOutcome }.

(** A raw callback or a handler object, as accepted by the setters. *)
Inductive HandlerCallback :=
| RawCallback (f : nat -> HandlerOptions -> HandleOutcome)
| HandlerObject (h : Handler).

(** Modelled from the spec: [utils/normalizeHandler.js] is not part of the
    sources at hand.  It "normalizes a raw callback-shaped value (a function
    taking context, returning a response-producing result) into the Handler
    capability shape if not already such". *)
Definition normalizeHandler (handler : HandlerCallback) : Handler :=
  match handler with
  | RawCallback f => {| handle := f |}
  | HandlerObject h => h
  end.

Module Route.
(** A match callback is a function of its options that returns a value. *)
Record t := {
  method : string;
  match_ : MatchOptions -> JsVal;
  handler : Handler
}.
End Route.
Abbreviation Route := Route.t.

(** References to route objects. *)
Definition loc := nat.

(** ** The router and its monad *)

Record Router := {
  _routes : gmap string (list loc);
  _defaultHandler : option Handler;
  _catchHandler : option Handler
}.

(** [new Router()]. *)
Definition constructor : Router :=
  {| _routes := ∅; _defaultHandler := None; _catchHandler := None |}.

(** Which handler a logged [handle] call went to. *)
Inductive Callee :=
| RouteHandler (route : loc)
| DefaultHandler
| CatchHandler.

Inductive Call :=
| CallMatch (route : loc) (options : MatchOptions)
| CallHandle (callee : Callee) (options : HandlerOptions)
| CallWaitUntil (p : Promise)
| CallPostMessage (port : MessagePort) (message : JsVal).

Record State := {
  this : Router;
  log : list (nat * Call)
}.

Inductive Outcome (A : Type) :=
| Normal (a : A)
| Thrown (e : JsVal).
Arguments Normal {A} a.
Arguments Thrown {A} e.

Definition M (A : Type) : Type := State -> Outcome A * State.

Definition ret {A} (a : A) : M A := fun s => (Normal a, s).

Definition bind {A B} (m : M A) (k : A -> M B) : M B :=
  fun s => match m s with
           | (Normal a, s') => k a s'
           | (Thrown e, s') => (Thrown e, s')
           end.

Definition throw {A} (e : JsVal) : M A := fun s => (Thrown e, s).

(** [try { body } catch (err) { handler }]. *)
Definition try_catch {A} (body : M A) (handler : JsVal -> M A) : M A :=
  fun s => match body s with
           | (Normal a, s') => (Normal a, s')
           | (Thrown err, s') => handler err s'
           end.

Definition get_this : M Router := fun s => (Normal (this s), s).

Definition set_routes (routes : gmap string (list loc)) : M unit :=
  fun s => (Normal tt,
            {| this := {| _routes := routes;
                          _defaultHandler := _defaultHandler (this s);
                          _catchHandler := _catchHandler (this s) |};
               log := log s |}).

Definition set_defaultHandler (h : Handler) : M unit :=
  fun s => (Normal tt,
            {| this := {| _routes := _routes (this s);
                          _defaultHandler := Some h;
                          _catchHandler := _catchHandler (this s) |};
               log := log s |}).

Definition set_catchHandler (h : Handler) : M unit :=
  fun s => (Normal tt,
            {| this := {| _routes := _routes (this s);
                          _defaultHandler := _defaultHandler (this s);
                          _catchHandler := Some h |};
               log := log s |}).

(** Record that the router makes call [c] at tick [t]. *)
Definition emit (t : nat) (c : Call) : M unit :=
  fun s => (Normal tt, {| this := this s; log := log s ++ [(t, c)] |}).

#[global] Instance M_ret : MRet M := @ret.
#[global] Instance M_bind : MBind M := fun A B k m => bind m k.

(** ** Arrays of references *)

Fixpoint indexOf_from (x : loc) (l : list loc) (i : Z) : Z :=
  match l with
  | [] => -1
  | y :: l' => if decide (y = x) then i else indexOf_from x l' (i + 1)
  end.

(** [l.indexOf(x)]: the first index holding [x], or [-1]. *)
Definition indexOf (x : loc) (l : list loc) : Z := indexOf_from x l 0.

(** [l.splice(i, 1)] for [0 <= i]. *)
Definition splice1 (i : Z) (l : list loc) : list loc :=
  take (Z.to_nat i) l ++ drop (S (Z.to_nat i)) l.

(** ** The methods of the class *)

Section Router.

(** The store of route objects. *)
Variable heap : loc -> Route.

(** [new URL(s, location.href)] of the platform. *)
Variable new_URL : string -> URL.

(** [new Request(url, init)] of the platform. *)
Variable new_Request : string -> option RequestInit -> Request.

(** *** Route table *)

Definition registerRoute (route : loc) : M unit :=
  let method := Route.method (heap route) in
  r ← get_this;
  (match _routes r !! method with
   | None => set_routes (<[method := []]> (_routes r))
   | Some _ => ret tt
   end);;
  r ← get_this;
  set_routes (alter (fun l => l ++ [route]) method (_routes r)).

Definition unregisterRoute (route : loc) : M unit :=
  let method := Route.method (heap route) in
  r ← get_this;
  match _routes r !! method with
  | None =>
      throw (VWorkboxError "unregister-route-but-not-found-with-method"
               [("method", method)])
  | Some l =>
      let routeIndex := indexOf route l in
      if (-1 <? routeIndex)%Z
      then set_routes (alter (splice1 routeIndex) method (_routes r))
      else throw (VWorkboxError "unregister-route-route-not-registered" [])
  end.

Definition setDefaultHandler (handler : HandlerCallback) : M unit :=
  set_defaultHandler (normalizeHandler handler).

Definition setCatchHandler (handler : HandlerCallback) : M unit :=
  set_catchHandler (normalizeHandler handler).

(** *** Matching *)

(** The body of the loop of [findMatchingRoute], over the routes that
    remain; the result is [{route, params}], [(None, None)] being [{}]. *)
Fixpoint findMatchingRoute_loop (now : nat) (options : MatchOptions)
    (routes : list loc) : M (option loc * option JsVal) :=
  match routes with
  | [] => ret (None, None)
  | route :: rest =>
      emit now (CallMatch route options);;
      let matchResult := Route.match_ (heap route) options in
      if truthy matchResult then
        let params :=
          if Array_isArray matchResult && (0 <? Array_length matchResult)%Z
          then Some matchResult
          else if constructor_is_Object matchResult
                  && (0 <? Z.of_nat (length (Object_keys matchResult)))%Z
          then Some matchResult
          else None in
        ret (Some route, params)
      else findMatchingRoute_loop now options rest
  end.

Definition findMatchingRoute (now : nat) (options : MatchOptions)
    : M (option loc * option JsVal) :=
  r ← get_this;
  let routes := default [] (_routes r !! Request.method (mo_request options)) in
  findMatchingRoute_loop now options routes.

(** *** Request handling *)

(** [handler.handle(options)] at tick [t]: the call is logged, then it
    throws or returns as the handler object says. *)
Definition call_handle (callee : Callee) (handler : Handler) (t : nat)
    (options : HandlerOptions) : M (option Promise) :=
  emit t (CallHandle callee options);;
  match handle handler t options with
  | Throws err => throw err
  | Returns p => ret p
  end.

(** [p.catch(onRejected)], registered at tick [now].  The reaction runs
    once [p] has rejected, and not before the registration; the derived
    promise is resolved with what the reaction returns and rejected with
    what it throws.  The reaction's calls are logged with the tick at
    which they will happen. *)
Definition Promise_catch (now : nat) (p : Promise)
    (onRejected : nat -> JsVal -> M (option Promise)) : M Promise :=
  match p with
  | Pending => ret Pending
  | SettlesAt t (Fulfilled v) => ret (SettlesAt (now `max` t) (Fulfilled v))
  | SettlesAt t (Rejected err) =>
      let t' := (now `max` t)%nat in
      try_catch
        (x ← onRejected t' err; ret (Promise_resolve t' x))
        (fun err' => ret (Promise_reject t' err'))
  end.

(** [handleRequest({request, event})], called at tick [now].  The result
    is [None] for [undefined].  The catch handler is the one set when the
    request is handled: it is assumed not to be replaced while the
    request is in flight. *)
Definition handleRequest (now : nat) (request : Request)
    (event : option ExtendableEvent) : M (option Promise) :=
  let url := new_URL (Request.url request) in
  if negb (String.prefix "http" (protocol url)) then ret None
  else
    found ← findMatchingRoute now
               {| mo_url := url; mo_request := request; mo_event := event |};
    let '(route, params) := found in
    r ← get_this;
    let handler :=
      (fun route => (RouteHandler route, Route.handler (heap route))) <$> route in
    let handler :=
      match handler with
      | Some h => Some h
      | None => (fun h => (DefaultHandler, h)) <$> _defaultHandler r
      end in
    match handler with
    | None => ret None
    | Some (callee, handler) =>
        responsePromise ←
          try_catch
            (call_handle callee handler now
               {| ho_url := url; ho_request := request;
                  ho_event := event; ho_params := params |})
            (fun err => ret (Some (Promise_reject now err)));
        match responsePromise, _catchHandler r with
        | Some p, Some catchHandler =>
            p' ← Promise_catch now p (fun t err =>
                    call_handle CatchHandler catchHandler t
                      {| ho_url := url; ho_request := request;
                         ho_event := event; ho_params := None |});
            ret (Some p')
        | _, _ => ret responsePromise
        end
    end.

(** *** The cache-priming message listener *)

Fixpoint mapM {A B} (f : A -> M B) (l : list A) : M (list B) :=
  match l with
  | [] => ret []
  | a :: l' => b ← f a; bs ← mapM f l'; ret (b :: bs)
  end.

(** The earliest rejection among [ps]; the first listed one on a tie. *)
Fixpoint first_rejection (ps : list Promise) : option (nat * JsVal) :=
  match ps with
  | [] => None
  | p :: rest =>
      let later := first_rejection rest in
      match p with
      | SettlesAt t (Rejected err) =>
          match later with
          | Some (t', err') => if (t' <? t)%nat then later else Some (t, err)
          | None => Some (t, err)
          end
      | _ => later
      end
  end.

(** The tick by which all of [ps] have fulfilled, with their values;
    [None] when one of them does not fulfil. *)
Fixpoint all_fulfilled (ps : list Promise) : option (nat * list JsVal) :=
  match ps with
  | [] => Some (0%nat, [])
  | SettlesAt t (Fulfilled v) :: rest =>
      match all_fulfilled rest with
      | Some (t', vs) => Some ((t `max` t')%nat, v :: vs)
      | None => None
      end
  | _ :: _ => None
  end.

(** [Promise.all(values)] at tick [now]: rejects with the first rejection,
    fulfils once every element has fulfilled, stays pending otherwise. *)
Definition Promise_all (now : nat) (values : list (option Promise)) : Promise :=
  let ps := Promise_resolve now <$> values in
  match first_rejection ps with
  | Some (t, err) => SettlesAt (now `max` t) (Rejected err)
  | None =>
      match all_fulfilled ps with
      | Some (t, vs) => SettlesAt (now `max` t) (Fulfilled (VArray vs))
      | None => Pending
      end
  end.

(** The listener that [addCacheListener] installs, run on a message event
    delivered at tick [now]. *)
Definition addCacheListener_listener (now : nat)
    (event : ExtendableMessageEvent) : M unit :=
  match data event with
  | Some d =>
      if String.eqb (type d) "CACHE_URLS" then
        results ← mapM (fun entry =>
                      let entry :=
                        match entry with
                        | EntryString s => (s, None)
                        | EntryArray s init => (s, init)
                        end in
                      let request := new_Request entry.1 entry.2 in
                      handleRequest now request None)
                     (urlsToCache d);
        let requestPromises := Promise_all now results in
        emit now (CallWaitUntil requestPromises);;
        match ports event with
        | port :: _ =>
            (* await requestPromises; *)
            match requestPromises with
            | SettlesAt t (Fulfilled _) =>
                emit t (CallPostMessage port (VBool true))
            | SettlesAt _ (Rejected _) | Pending => ret tt
            end
        | [] => ret tt
        end
      else ret tt
  | None => ret tt
  end.

End Router.

(** ** Vocabulary of the statements *)

Section Vocabulary.

Variable heap : loc -> Route.
Variable new_URL : string -> URL.

(** Registering the routes [rs] one after the other. *)
Fixpoint registerRoutes (rs : list loc) : M unit :=
  match rs with
  | [] => ret tt
  | route :: rest => registerRoute heap route;; registerRoutes rest
  end.

(** The routes registered for [method], in the order of the array. *)
Definition routes_of (r : Router) (method : string) : list loc :=
  default [] (_routes r !! method).

(** The options [handleRequest] passes to [match] and to [handle]. *)
Definition match_options (request : Request) (event : option ExtendableEvent)
    : MatchOptions :=
  {| mo_url := new_URL (Request.url request);
     mo_request := request; mo_event := event |}.

Definition handler_options (request : Request)
    (event : option ExtendableEvent) (params : option JsVal) : HandlerOptions :=
  {| ho_url := new_URL (Request.url request); ho_request := request;
     ho_event := event; ho_params := params |}.

Definition is_http (request : Request) : bool :=
  String.prefix "http" (protocol (new_URL (Request.url request))).

Definition no_match (options : MatchOptions) (route : loc) : Prop :=
  truthy (Route.match_ (heap route) options) = false.

(** The handler that [handleRequest] resolves from the outcome of the
    matching step, with the place it comes from. *)
Definition resolved (r : Router) (route : option loc)
    : option (Callee * Handler) :=
  match route with
  | Some route => Some (RouteHandler route, Route.handler (heap route))
  | None => (fun h => (DefaultHandler, h)) <$> _defaultHandler r
  end.

(** What the caller gets from one call of [handler.handle] when no catch
    handler stands behind it: the promise returned, or a rejected promise
    for a synchronous throw. *)
Definition response_of (handler : Handler) (now : nat)
    (options : HandlerOptions) : option Promise :=
  match handle handler now options with
  | Throws err => Some (Promise_reject now err)
  | Returns p => p
  end.

End Vocabulary.

(** The request the message listener derives from an entry of
    [urlsToCache]. *)
Definition request_of (new_Request : string -> option RequestInit -> Request)
    (entry : RequestArgs) : Request :=
  match entry with
  | EntryString s => new_Request s None
  | EntryArray s init => new_Request s init
  end.

(** The result of a derived [handleRequest] succeeds: it is [undefined] or a
    promise that fulfils. *)
Definition fulfils (x : option Promise) : bool :=
  match x with
  | None | Some (SettlesAt _ (Fulfilled _)) => true
  | Some (SettlesAt _ (Rejected _)) | Some Pending => false
  end.

(** The result of a derived [handleRequest] has settled by tick [t]. *)
Definition settled_by (t : nat) (x : option Promise) : Prop :=
  match x with
  | None => True
  | Some (SettlesAt t' _) => t' <= t
  | Some Pending => False
  end.

(** The calls of [route.match] made at tick [now] for [routes], in order. *)
Definition match_calls (now : nat) (options : MatchOptions)
    (routes : list loc) : list (nat * Call) :=
  (fun route => (now, CallMatch route options)) <$> routes.

Definition is_catch_call (c : nat * Call) : bool :=
  match c.2 with CallHandle CatchHandler _ => true | _ => false end.

Definition is_post_call (c : nat * Call) : bool :=
  match c.2 with CallPostMessage _ _ => true | _ => false end.

(** How often the catch handler is invoked in a log. *)
Definition catch_calls (l : list (nat * Call)) : nat :=
  length (filter (fun c => is_catch_call c = true) l).

(** The normalisation of a match result in the words of the specification:
    a non-empty sequence or mapping is passed on, anything else is absent. *)
Definition normalized_params (matchResult : JsVal) : option JsVal :=
  match matchResult with
  | VArray (_ :: _) | VObject (_ :: _) => Some matchResult
  | _ => None
  end.

(** ** A concrete worker, for the scenarios of the specification *)

Module Scenario.

(** A URL constructor that is enough for absolute URLs: the protocol is
    the text up to and including the first colon. *)
Definition new_URL (s : string) : URL :=
  {| protocol := match String.index 0 ":" s with
                 | Some n => String.substring 0 (S n) s
                 | None => ""
                 end;
     href := s |}.

(** A request constructor resolving relative URLs against the worker's
    origin. *)
Definition new_Request (s : string) (init : option RequestInit) : Request :=
  {| Request.url :=
       match String.index 0 ":" s with
       | Some _ => s
       | None =>
           String.append "https://example.com/"
             (if String.prefix "./" s
              then String.substring 2 (String.length s - 2) s else s)
       end;
     Request.method := default "GET" (init ≫= init_method) |}.

Definition matches_path (path : string) (options : MatchOptions) : JsVal :=
  VBool (String.eqb (href (mo_url options))
                    (String.append "https://example.com/" path)).

(** A handler whose response arrives one tick after the call. *)
Definition responds (body : string) : Handler :=
  {| handle := fun t _ => Returns (Some (SettlesAt (S t) (Fulfilled (VStr body)))) |}.

Definition throws (message : string) : Handler :=
  {| handle := fun _ _ => Throws (VStr message) |}.

Definition rejects (message : string) : Handler :=
  {| handle := fun t _ => Returns (Some (SettlesAt (S t) (Rejected (VStr message)))) |}.

Definition routeA : Route :=
  {| Route.method := "GET"; Route.match_ := matches_path "a";
     Route.handler := responds "A" |}.

Definition routeB : Route :=
  {| Route.method := "GET"; Route.match_ := matches_path "a";
     Route.handler := responds "B" |}.

(** A route whose match callback answers with an empty array. *)
Definition routeEmpty : Route :=
  {| Route.method := "GET";
     Route.match_ := fun options =>
       if truthy (matches_path "empty" options) then VArray [] else VNull;
     Route.handler := responds "E" |}.

Definition routeThrows : Route :=
  {| Route.method := "GET"; Route.match_ := matches_path "throw";
     Route.handler := throws "boom" |}.

Definition routeOffline : Route :=
  {| Route.method := "GET"; Route.match_ := matches_path "x.js";
     Route.handler := rejects "offline" |}.

Definition routeY : Route :=
  {| Route.method := "GET"; Route.match_ := matches_path "y.js";
     Route.handler := responds "Y" |}.

Definition routeX : Route :=
  {| Route.method := "GET"; Route.match_ := matches_path "x.js";
     Route.handler := responds "X" |}.

(** A route that matches every request. *)
Definition routeAny : Route :=
  {| Route.method := "GET"; Route.match_ := fun _ => VBool true;
     Route.handler := responds "any" |}.

(** The store: references [0] to [7] hold the routes above; the other
    references hold further objects with the contents of [routeA]. *)
Definition heap (l : loc) : Route :=
  match l with
  | 0 => routeA
  | 1 => routeB
  | 2 => routeEmpty
  | 3 => routeThrows
  | 4 => routeOffline
  | 5 => routeY
  | 6 => routeX
  | 7 => routeAny
  | _ => routeA
  end%nat.

Definition fresh : State := {| this := constructor; log := [] |}.

(** The state in which [m] leaves a fresh router. *)
Definition after {A} (m : M A) : State := (m fresh).2.

Definition get (path : string) : Request :=
  new_Request path None.

(** The message of the specification's cache-priming scenario, with a
    reply port. *)
Definition cache_urls (urls : list RequestArgs) : ExtendableMessageEvent :=
  {| data := Some {| type := "CACHE_URLS"; urlsToCache := urls |};
     ports := [7%nat] |}.

Definition no_cors : RequestInit :=
  {| init_method := None; init_mode := Some "no-cors" |}.

End Scenario.

(** ** Further requests for the concrete worker *)

Module Requests.

Definition post (path : string) : Request :=
  Scenario.new_Request path
    (Some {| init_method := Some "POST"; init_mode := None |}).

End Requests.

(** ** The fetch listener *)



Section FetchListener.

Variable heap : loc -> Route.
Variable new_URL : string -> URL.


End FetchListener.

(** ** Further vocabulary *)

(** Every route listed under a method has that method. *)
Definition table_wf (heap : loc -> Route) (r : Router) : Prop :=
  forall method l,
    _routes r !! method = Some l ->
    Forall (fun route => Route.method (heap route) = method) l.

(** How often an acknowledgement is posted in a log. *)
Definition post_calls (l : list (nat * Call)) : nat :=
  length (filter (fun c => is_post_call c = true) l).

(** * workbox-webpack-plugin: the GenerateSW class

    The embedding of [packages/workbox-webpack-plugin/src/generate-sw.js].
    The plugin's configuration is a JavaScript object used as a map from
    option names to values.  The functions the class imports from
    workbox-build and from its own [lib] directory are parameters: each is
    given by what a call of it returns or throws. *)

Module GenerateSW.

(** The line feed of the template literals. *)
Definition LF : string := String (Ascii.ascii_of_nat 10) EmptyString.

(** What is thrown, rejected with, or pushed to [compilation.errors]:
    an [Error] made with [new Error(message)], or any other value. *)
Inductive Exn :=
| Error (message : string)
| Foreign (v : JsVal).

(** The part of the webpack compiler the plugin reads:
    [compiler.options.mode] and [compiler.options.devtool]. *)
Record Compiler := {
  options_mode : JsVal;
  options_devtool : JsVal
}.

(** A webpack source: a [RawSource] made by the plugin, or a source some
    other part of the compilation has put there. *)
Inductive Source :=
| RawSource (contents : string)
| OtherSource (id : nat).

Record Compilation := {
  assets : gmap string Source;
  errors : list Exn
}.

(** A file as [bundle] returns it. *)
Record File := { name : string; contents : string }.

(** The argument of [bundle]. *)
Record BundleOptions := {
  babelPresetEnvTargets : JsVal;
  inlineWorkboxRuntime : JsVal;
  mode : JsVal;
  sourcemap : JsVal;
  swDest : string;
  unbundledCode : string
}.

(** How a promise ends, when it does. *)
Inductive Settlement (A : Type) :=
| Resolves (a : A)
| Rejects (err : Exn)
| Unsettled.
Arguments Resolves {A} a.
Arguments Rejects {A} err.
Arguments Unsettled {A}.

(** [config.key], [undefined] when the property is missing. *)
Definition prop (config : gmap string JsVal) (key : string) : JsVal :=
  default VUndefined (config !! key).

(** [Object.assign(target, source)]: the properties of [source] are copied
    over those of [target]. *)
Definition Object_assign (target source : gmap string JsVal)
    : gmap string JsVal :=
  source ∪ target.

(** [propagateWebpackConfig(compiler)], as a function of [this.config]. *)
Definition propagateWebpackConfig (compiler : Compiler)
    (config : gmap string JsVal) : gmap string JsVal :=
  Object_assign
    (<["mode" := options_mode compiler]>
       (<["sourcemap" := VBool (truthy (options_devtool compiler))]> ∅))
    config.

Section Plugin.

(** [this.constructor.name]. *)
Variable constructor_name : string.

(** [validate(config, webpackGenerateSWSchema)]: the validated
    configuration, or the text of the [message] of the error it throws. *)
Variable validate : gmap string JsVal -> string + gmap string JsVal.

Variable getManifestEntriesFromCompilation :
  Compilation -> gmap string JsVal -> Exn + JsVal.

Variable populateSWTemplate : gmap string JsVal -> Exn + string.

Variable relativeToOutputPath : Compilation -> JsVal -> Exn + string.

(** [bundle(options)], by how the promise it returns ends. *)
Variable bundle : BundleOptions -> Settlement (list File).

(** The loop that stores the bundled files as assets. *)
Fixpoint store_files (files : list File) (assets : gmap string Source)
    : gmap string Source :=
  match files with
  | [] => assets
  | file :: rest =>
      store_files rest (<[name file := RawSource (contents file)]> assets)
  end.

(** [handleEmit(compilation)]: how the promise of the async function ends,
    with [this.config] and the compilation as it leaves them. *)
Definition handleEmit (config : gmap string JsVal) (compilation : Compilation)
    : Settlement unit * gmap string JsVal * Compilation :=
  match validate config with
  | inl message =>
      (Rejects (Error (String.append "Please check your "
                         (String.append constructor_name
                            (String.append " plugin configuration:"
                               (String.append LF message))))),
       config, compilation)
  | inr config =>
      match getManifestEntriesFromCompilation compilation config with
      | inl err => (Rejects err, config, compilation)
      | inr manifestEntries =>
          let config := <["manifestEntries" := manifestEntries]> config in
          match populateSWTemplate config with
          | inl err => (Rejects err, config, compilation)
          | inr unbundledCode =>
              match relativeToOutputPath compilation (prop config "swDest") with
              | inl err => (Rejects err, config, compilation)
              | inr swDest =>
                  match bundle
                          {| babelPresetEnvTargets :=
                               prop config "babelPresetEnvTargets";
                             inlineWorkboxRuntime :=
                               prop config "inlineWorkboxRuntime";
                             mode := prop config "mode";
                             sourcemap := prop config "sourcemap";
                             swDest := swDest;
                             unbundledCode := unbundledCode |}
                  with
                  | Resolves files =>
                      (Resolves tt, config,
                       {| assets := store_files files (assets compilation);
                          errors := errors compilation |})
                  | Rejects err => (Rejects err, config, compilation)
                  | Unsettled => (Unsettled, config, compilation)
                  end
              end
          end
      end
  end.

(** The callback that [apply] taps into the emit hook:
    [(compilation) => this.handleEmit(compilation).catch(
       (error) => compilation.errors.push(error))].
    The promise it returns is fulfilled with [undefined] or with what [push]
    returns, the new length of [compilation.errors]. *)
Definition emit_callback (config : gmap string JsVal) (compilation : Compilation)
    : Settlement (option nat) * gmap string JsVal * Compilation :=
  match handleEmit config compilation with
  | (Resolves _, config, compilation) => (Resolves None, config, compilation)
  | (Rejects error, config, compilation) =>
      let errors := errors compilation ++ [error] in
      (Resolves (Some (length errors)), config,
       {| assets := assets compilation; errors := errors |})
  | (Unsettled, config, compilation) => (Unsettled, config, compilation)
  end.

End Plugin.

(** The contents of the last of [files] that is named [key]. *)
Fixpoint last_named (key : string) (files : list File) : option string :=
  match files with
  | [] => None
  | file :: rest =>
      match last_named key rest with
      | Some c => Some c
      | None => if decide (name file = key) then Some (contents file) else None
      end
  end.

(** A plugin whose collaborators always succeed, except that [validate]
    refuses a configuration with a [bogus] option. *)
Module Scenario.

Definition validate (config : gmap string JsVal) : string + gmap string JsVal :=
  match config !! "bogus" with
  | Some _ => inl "bogus is not a supported parameter."
  | None => inr (<["swDest" := default (VStr "service-worker.js")
                                 (config !! "swDest")]> config)
  end.

Definition getManifestEntriesFromCompilation (compilation : Compilation)
    (config : gmap string JsVal) : Exn + JsVal :=
  inr (VArray []).

Definition populateSWTemplate (config : gmap string JsVal) : Exn + string :=
  inr "precacheAndRoute([]);".

Definition relativeToOutputPath (compilation : Compilation) (swDest : JsVal)
    : Exn + string :=
  match swDest with
  | VStr s => inr s
  | _ => inl (Error "swDest is not a string")
  end.

Definition bundle (options : BundleOptions) : Settlement (list File) :=
  Resolves [{| name := swDest options; contents := unbundledCode options |}].

Definition handleEmit :=
  handleEmit "GenerateSW" validate getManifestEntriesFromCompilation
    populateSWTemplate relativeToOutputPath bundle.

Definition emit_callback :=
  emit_callback "GenerateSW" validate getManifestEntriesFromCompilation
    populateSWTemplate relativeToOutputPath bundle.

Definition compilation : Compilation :=
  {| assets := {[ "main.js" := OtherSource 0 ]}; errors := [] |}.

End Scenario.

End GenerateSW.

(** * workbox-cli: the command dispatcher

    The embedding of [packages/workbox-cli/src/app.js].  The modules it
    requires (workbox-build, the wizard, the configuration reader, the
    logger, the file watcher, [path], the table of error messages) are
    parameters; what the dispatcher does with them is recorded as a list of
    effects, in order.  An awaited promise of a collaborator is given by
    how it settles. *)

Module Cli.

Definition LF : string := String (Ascii.ascii_of_nat 10) EmptyString.

(** What is thrown: an [Error] or an [AssertionError] made here, or a value
    thrown by a collaborator, which may have an [annotate] method; then
    [annotate] is the text that method returns. *)
Inductive Exn :=
| Error (message : string)
| AssertionError (message : string)
| Foreign (id : nat) (annotate : option string).

(** [typeof error.annotate === 'function'], with the text of
    [error.annotate()]. *)
Definition annotate_of (error : Exn) : option string :=
  match error with
  | Foreign _ annotate => annotate
  | Error _ | AssertionError _ => None
  end.

(** The part of a configuration the dispatcher reads; [swDest] is the text
    [config.swDest] gives in a template literal. *)
Record Config := {
  swDest : string;
  globPatterns : JsVal;
  globIgnores : JsVal;
  globDirectory : JsVal
}.

(** What a build command resolves to. *)
Record BuildResult := {
  count : Z;
  filePaths : list string;
  size : Z;
  warnings : list string
}.

(** The options given to the watcher; a field is [None] when the property
    is not set. *)
Record WatchOptions := {
  ignoreInitial : bool;
  ignored : option JsVal;
  cwd : option JsVal
}.

Inductive Effect :=
| RunWizard (flags : option (gmap string JsVal))
| CopyWorkboxLibraries (parentDirectory : string)
| ReadConfig (configPath : string)
| Build (command : string) (config : Config)
| Watch (patterns : JsVal) (options : WatchOptions)
| ShowHelp
| LoggerLog (message : string)
| LoggerWarn (message : string)
| LoggerError (message : string).

(** [params]: [input] is [None] when [params.input] is not an array. *)
Record Params := {
  input : option (list string);
  flags : option (gmap string JsVal)
}.

(** Computations that throw and record effects. *)
Definition C (A : Type) : Type := list Effect -> (Exn + A) * list Effect.

Definition ret {A} (a : A) : C A := fun effects => (inr a, effects).

Definition bind {A B} (m : C A) (k : A -> C B) : C B :=
  fun effects => match m effects with
                 | (inr a, effects') => k a effects'
                 | (inl error, effects') => (inl error, effects')
                 end.

Definition throw {A} (error : Exn) : C A := fun effects => (inl error, effects).

Definition try_catch {A} (body : C A) (handler : Exn -> C A) : C A :=
  fun effects => match body effects with
                 | (inr a, effects') => (inr a, effects')
                 | (inl error, effects') => handler error effects'
                 end.

(** Do [effect]; the collaborator returns [a] or throws. *)
Definition call {A} (effect : Effect) (outcome : Exn + A) : C A :=
  fun effects => (outcome, effects ++ [effect]).

Definition do (effect : Effect) : C unit := call effect (inr tt).

(** [assert(value, message)]. *)
Definition assert (value : bool) (message : string) : C unit :=
  if value then ret tt else throw (AssertionError message).

#[global] Instance C_ret : MRet C := @ret.
#[global] Instance C_bind : MBind C := fun A B k m => bind m k.

Fixpoint for_each {A} (f : A -> C unit) (l : list A) : C unit :=
  match l with
  | [] => ret tt
  | a :: rest => f a;; for_each f rest
  end.

(** A string is truthy when it is not empty. *)
Definition nonempty (s : string) : bool := negb (String.eqb s "").

Section App.

(** [errors[key]] of [./lib/errors]. *)
Variable errors : string -> string.

(** [constants.defaultConfigFile]. *)
Variable defaultConfigFile : string.

Variable process_cwd : string.
Variable path_resolve : string -> string -> string.
Variable path_join : string -> string -> string.
Variable prettyBytes : Z -> string.

(** The text of a number in a template literal. *)
Variable Number_toString : Z -> string.

(** [Array.prototype.sort] without a comparison function. *)
Variable Array_sort : list string -> list string.

(** The [oneLine] tag of common-tags. *)
Variable ol : string -> string.

Variable runWizard : option (gmap string JsVal) -> Exn + unit.
Variable copyWorkboxLibraries : string -> Exn + string.
Variable readConfig : string -> Exn + Config.

(** [workboxBuild[command](config)]. *)
Variable workboxBuild : string -> Config -> Exn + BuildResult.

Definition runBuildCommand (command : string) (config : Config) (watch : bool)
    : C unit :=
  try_catch
    (result ← call (Build command config) (workboxBuild command config);
     for_each (fun warning => do (LoggerWarn warning)) (warnings result);;
     (if (length (filePaths result) =? 1)%nat then
        do (LoggerLog (String.append "The service worker file was written to "
                         (swDest config)))
      else
        let message :=
          String.concat LF
            ((fun filePath => String.append "  • " filePath)
               <$> Array_sort (filePaths result)) in
        do (LoggerLog (String.append "The service worker files were written to:"
                         (String.append LF message))));;
     do (LoggerLog
           (String.append "The service worker will precache "
              (String.append (Number_toString (count result))
                 (String.append " URLs, totaling "
                    (String.append (prettyBytes (size result)) ".")))));;
     if watch then
       do (LoggerLog (String.append LF "Watching for changes..."))
     else ret tt)
    (fun error =>
       match annotate_of error with
       | Some annotated =>
           throw (Error (String.append (errors "config-validation-failed")
                           (String.append LF annotated)))
       | None =>
           do (LoggerError (errors "workbox-build-runtime-error"));;
           throw error
       end).

(** [module.exports], the function the command line calls. *)
Definition app (params : Params) : C unit :=
  assert (bool_decide (is_Some (input params))) (errors "missing-input");;
  let input := default [] (input params) in
  let command := default "help" (input !! 0%nat) in
  let option := input !! 1%nat in
  if String.eqb command "wizard" then
    call (RunWizard (flags params)) (runWizard (flags params))
  else if String.eqb command "copyLibraries" then
    assert (from_option nonempty false option) (errors "missing-dest-dir-param");;
    let parentDirectory := path_resolve process_cwd (default "" option) in
    dirName ← call (CopyWorkboxLibraries parentDirectory)
                (copyWorkboxLibraries parentDirectory);
    let fullPath := path_join parentDirectory dirName in
    do (LoggerLog (String.append "The Workbox libraries were copied to " fullPath));;
    do (LoggerLog
          (ol (String.append
                 "Add a call to workbox.setConfig({modulePathPrefix: '...'})"
                 (String.append LF
                    "        to your service worker to use these local libraries."))));;
    do (LoggerLog "See https://goo.gl/Fo9gPX for further documentation.")
  else if String.eqb command "generateSW" || String.eqb command "injectManifest" then
    let configPath :=
      path_resolve process_cwd
        (match option with
         | Some o => if nonempty o then o else defaultConfigFile
         | None => defaultConfigFile
         end) in
    config ← try_catch
               (call (ReadConfig configPath) (readConfig configPath))
               (fun error =>
                  do (LoggerError (errors "invalid-common-js-module"));;
                  throw error);
    do (LoggerLog (String.append "Using configuration from "
                     (String.append configPath ".")));;
    if from_option (fun flags => truthy (default VUndefined (flags !! "watch")))
         false (flags params)
    then
      let options :=
        {| ignoreInitial := false;
           ignored := if truthy (globIgnores config)
                      then Some (globIgnores config) else None;
           cwd := if truthy (globDirectory config)
                  then Some (globDirectory config) else None |} in
      do (Watch (globPatterns config) options)
    else runBuildCommand command config false
  else if String.eqb command "help" then
    do ShowHelp
  else
    throw (Error (String.append (errors "unknown-command")
                    (String.append " " command))).

(** The callback handed to the watcher:
    [() => runBuildCommand({command, config, watch: true})]. *)
Definition watch_callback (command : string) (config : Config) : C unit :=
  runBuildCommand command config true.

End App.

(** [params.flags && params.flags.watch], as a condition. *)
Definition watching (params : Params) : bool :=
  from_option (fun flags => truthy (default VUndefined (flags !! "watch")))
    false (flags params).

(** [option || constants.defaultConfigFile]. *)
Definition config_file (defaultConfigFile : string) (option : option string)
    : string :=
  match option with
  | Some o => if nonempty o then o else defaultConfigFile
  | None => defaultConfigFile
  end.


(** A command line whose collaborators succeed, except that the build of a
    configuration without [swDest] is refused with an annotated error. *)
Module Scenario.

Definition errors (key : string) : string := key.

Definition config : Config :=
  {| swDest := "build/sw.js"; globPatterns := VArray [VStr "**/*.js"];
     globIgnores := VUndefined; globDirectory := VStr "build" |}.

Definition readConfig (configPath : string) : Exn + Config :=
  if String.eqb configPath "/app/missing.js"
  then inl (Foreign 1 None)
  else if String.eqb configPath "/app/empty.js"
  then inl (Foreign 2 None) else inr config.

Definition workboxBuild (command : string) (config : Config)
    : Exn + BuildResult :=
  if String.eqb (swDest config) ""
  then inl (Foreign 3 (Some "swDest is required"))
  else inr {| count := 2; filePaths := [swDest config]; size := 2048;
              warnings := ["One file was too large to precache."] |}.

Definition path_resolve (base file : string) : string :=
  String.append base (String.append "/" file).

Definition Number_toString (n : Z) : string :=
  if (n =? 2)%Z then "2" else "many".

Definition prettyBytes (n : Z) : string :=
  if (n =? 2048)%Z then "2.05 kB" else "some bytes".

Definition runBuildCommand :=
  runBuildCommand errors prettyBytes Number_toString (fun l => l) workboxBuild.

Definition app :=
  app errors "workbox-config.js" "/app" path_resolve path_resolve prettyBytes
    Number_toString (fun l => l) (fun s => s) (fun _ => inr tt)
    (fun _ => inl (Foreign 4 None)) readConfig workboxBuild.

End Scenario.

End Cli.

(** * Properties *)

Section Properties.

Variable heap : loc -> Route.
Variable new_URL : string -> URL.
Variable new_Request : string -> option RequestInit -> Request.

Lemma state_eta (s : State) : {| this := this s; log := log s |} = s.
Proof. by destruct s. Qed.

Lemma bind_run {A B} (m : M A) (k : A -> M B) s :
  (m ≫= k) s = match m s with
                | (Normal a, s') => k a s'
                | (Thrown e, s') => (Thrown e, s')
                end.
Proof. reflexivity. Qed.

(** *** The matching loop *)

Lemma params_normalized (v : JsVal) :
  (if Array_isArray v && (0 <? Array_length v)%Z then Some v
   else if constructor_is_Object v
           && (0 <? Z.of_nat (length (Object_keys v)))%Z then Some v
   else None) = normalized_params v.
Proof. by destruct v as [| | | | | |[|]|[|]| |]. Qed.

Lemma loop_found now options pre route post s :
  Forall (no_match heap options) pre ->
  truthy (Route.match_ (heap route) options) = true ->
  findMatchingRoute_loop heap now options (pre ++ route :: post) s =
    (Normal (Some route, normalized_params (Route.match_ (heap route) options)),
     {| this := this s;
        log := log s ++ match_calls now options (pre ++ [route]) |}).
Proof.
  intros Hpre Hroute. revert s.
  induction Hpre as [|r pre Hr _ IH]; intros s; cbn [app findMatchingRoute_loop].
  - rewrite bind_run. cbn [emit this log]. rewrite Hroute, params_normalized.
    reflexivity.
  - rewrite bind_run. cbn [emit]. unfold no_match in Hr. rewrite Hr, IH.
    cbn [this log]. unfold match_calls. rewrite fmap_cons, <- app_assoc.
    reflexivity.
Qed.

Lemma loop_none now options routes s :
  Forall (no_match heap options) routes ->
  findMatchingRoute_loop heap now options routes s =
    (Normal (None, None),
     {| this := this s; log := log s ++ match_calls now options routes |}).
Proof.
  intros Hall. revert s.
  induction Hall as [|r routes Hr _ IH]; intros s; cbn [findMatchingRoute_loop].
  - unfold match_calls. cbn. by rewrite app_nil_r, state_eta.
  - rewrite bind_run. cbn [emit]. unfold no_match in Hr. rewrite Hr, IH.
    cbn [this log]. unfold match_calls. rewrite fmap_cons, <- app_assoc.
    reflexivity.
Qed.

(** Whatever the routes answer, the loop returns normally, logs only
    [match] calls and leaves the router alone. *)
Lemma loop_total now options routes s :
  exists found called,
    findMatchingRoute_loop heap now options routes s =
      (Normal found,
       {| this := this s; log := log s ++ match_calls now options called |}).
Proof.
  revert s. induction routes as [|r routes IH]; intros s;
    cbn [findMatchingRoute_loop].
  - exists (None, None), []. unfold match_calls. cbn.
    by rewrite app_nil_r, state_eta.
  - rewrite bind_run. cbn [emit].
    destruct (truthy (Route.match_ (heap r) options)).
    + eexists _, [r]. reflexivity.
    + destruct (IH {| this := this s;
                      log := log s ++ [(now, CallMatch r options)] |})
        as (found & called & ->).
      exists found, (r :: called). cbn [this log]. unfold match_calls.
      by rewrite fmap_cons, <- app_assoc.
Qed.

(** *** The route table *)

Lemma alter_lookup_insert (f : list loc -> list loc)
    (m : gmap string (list loc)) k l :
  m !! k = Some l -> alter f k m = <[k := f l]> m.
Proof.
  intros Hk. apply map_eq. intros j. rewrite lookup_alter, lookup_insert.
  case_decide; [subst; by rewrite Hk|done].
Qed.

Lemma registerRoute_run route s :
  let method := Route.method (heap route) in
  registerRoute heap route s =
    (Normal tt,
     {| this :=
          {| _routes :=
               <[method := default [] (_routes (this s) !! method) ++ [route]]>
                 (_routes (this s));
             _defaultHandler := _defaultHandler (this s);
             _catchHandler := _catchHandler (this s) |};
        log := log s |}).
Proof.
  intros method. unfold registerRoute. fold method.
  rewrite bind_run. cbn [get_this]. rewrite bind_run.
  destruct (_routes (this s) !! method) as [l|] eqn:Hm.
  - cbn [ret]. rewrite bind_run. cbn [get_this set_routes default].
    by rewrite (alter_lookup_insert _ _ _ l).
  - cbn [set_routes]. rewrite bind_run. cbn [get_this set_routes this _routes default].
    rewrite (alter_lookup_insert _ _ _ []) by apply lookup_insert_eq.
    by rewrite insert_insert_eq.
Qed.

Lemma indexOf_from_absent route l i :
  route ∉ l -> indexOf_from route l i = (-1)%Z.
Proof.
  revert i. induction l as [|y l IH]; intros i Hnotin; [done|].
  cbn [indexOf_from]. apply not_elem_of_cons in Hnotin as [Hne Hnotin].
  case_decide; [congruence|]. by apply IH.
Qed.

Lemma indexOf_from_first route l1 l2 i :
  route ∉ l1 ->
  indexOf_from route (l1 ++ route :: l2) i = (i + Z.of_nat (length l1))%Z.
Proof.
  revert i. induction l1 as [|y l1 IH]; intros i Hnotin; cbn [app indexOf_from].
  - case_decide; [cbn; lia|done].
  - apply not_elem_of_cons in Hnotin as [Hne Hnotin].
    case_decide; [congruence|]. rewrite IH by done. cbn [length]. lia.
Qed.

Lemma splice1_first (route : loc) l1 l2 :
  splice1 (Z.of_nat (length l1)) (l1 ++ route :: l2) = l1 ++ l2.
Proof.
  unfold splice1. rewrite Nat2Z.id, take_app_length.
  rewrite drop_app_ge by lia.
  by replace (S (length l1) - length l1)%nat with 1%nat by lia.
Qed.

(** *** Matching and request handling, step by step *)

Lemma findMatchingRoute_run now options s :
  findMatchingRoute heap now options s =
    findMatchingRoute_loop heap now options
      (default [] (_routes (this s) !! Request.method (mo_request options))) s.
Proof. reflexivity. Qed.

Lemma findMatchingRoute_total now options s :
  exists found called,
    findMatchingRoute heap now options s =
      (Normal found,
       {| this := this s; log := log s ++ match_calls now options called |}).
Proof. rewrite findMatchingRoute_run. apply loop_total. Qed.

(** Registering [rs], all for [method], appends them in order to the
    array of that method and leaves the handlers and the log alone. *)
Lemma registerRoutes_routes method rs s0 :
  Forall (fun route => Route.method (heap route) = method) rs ->
  exists s,
    registerRoutes heap rs s0 = (Normal tt, s)
    /\ routes_of (this s) method = routes_of (this s0) method ++ rs
    /\ _defaultHandler (this s) = _defaultHandler (this s0)
    /\ _catchHandler (this s) = _catchHandler (this s0)
    /\ log s = log s0.
Proof.
  intros Hall. revert s0.
  induction Hall as [|route rs Hroute _ IH]; intros s0; cbn [registerRoutes].
  - exists s0. by rewrite app_nil_r.
  - rewrite bind_run, registerRoute_run, Hroute.
    match goal with |- context [registerRoutes heap rs ?s1] =>
      destruct (IH s1) as (s & -> & Hroutes & Hd & Hc & Hlog) end.
    exists s. split; [done|]. rewrite Hroutes, Hd, Hc, Hlog.
    unfold routes_of. cbn [this _routes _defaultHandler _catchHandler log].
    rewrite lookup_insert_eq. cbn [default]. unfold id. by rewrite <- app_assoc.
Qed.

Lemma handleRequest_not_http now request event s :
  is_http new_URL request = false ->
  handleRequest heap new_URL now request event s = (Normal None, s).
Proof. unfold handleRequest, is_http. by intros ->. Qed.

Lemma handleRequest_unhandled now request event s route params s1 :
  is_http new_URL request = true ->
  findMatchingRoute heap now (match_options new_URL request event) s
    = (Normal (route, params), s1) ->
  this s1 = this s ->
  resolved heap (this s) route = None ->
  handleRequest heap new_URL now request event s = (Normal None, s1).
Proof.
  unfold handleRequest, is_http, match_options, resolved.
  intros -> Hfind Hthis Hres. cbn [negb]. rewrite bind_run, Hfind.
  rewrite bind_run. cbn [get_this]. rewrite Hthis.
  destruct route as [route|]; [done|].
  by destruct (_defaultHandler (this s)).
Qed.

(** What [handleRequest] does once a handler is resolved: one call of
    [handle], and the reaction of the catch handler where there is one. *)
Lemma handleRequest_handled now request event s route params s1 callee h :
  is_http new_URL request = true ->
  findMatchingRoute heap now (match_options new_URL request event) s
    = (Normal (route, params), s1) ->
  this s1 = this s ->
  resolved heap (this s) route = Some (callee, h) ->
  let options := handler_options new_URL request event params in
  let fallback := handler_options new_URL request event None in
  let s2 := {| this := this s;
               log := log s1 ++ [(now, CallHandle callee options)] |} in
  let responsePromise :=
    match handle h now options with
    | Throws err => Some (Promise_reject now err)
    | Returns p => p
    end in
  handleRequest heap new_URL now request event s =
    match responsePromise, _catchHandler (this s) with
    | Some (SettlesAt t (Rejected err)), Some catchHandler =>
        let t' := (now `max` t)%nat in
        (Normal (Some match handle catchHandler t' fallback with
                      | Throws err' => Promise_reject t' err'
                      | Returns x => Promise_resolve t' x
                      end),
         {| this := this s;
            log := log s2 ++ [(t', CallHandle CatchHandler fallback)] |})
    | Some (SettlesAt t (Fulfilled v)), Some _ =>
        (Normal (Some (SettlesAt (now `max` t) (Fulfilled v))), s2)
    | _, _ => (Normal responsePromise, s2)
    end.
Proof.
  unfold handleRequest, is_http, match_options, resolved, handler_options.
  intros -> Hfind Hthis Hres. cbn [negb]. rewrite bind_run, Hfind.
  rewrite bind_run. cbn [get_this]. rewrite Hthis.
  assert (match (fun route0 => (RouteHandler route0, Route.handler (heap route0)))
                  <$> route with
          | Some h0 => Some h0
          | None => (fun h0 => (DefaultHandler, h0)) <$> _defaultHandler (this s)
          end = Some (callee, h)) as ->.
  { by destruct route. }
  rewrite bind_run. unfold try_catch, call_handle. rewrite bind_run.
  cbn [emit this log]. rewrite Hthis.
  destruct (handle h now _) as [err|[[|t [v|err]]|]];
    destruct (_catchHandler (this s)) as [c|]; cbn [throw ret]; try reflexivity.
  all: rewrite bind_run; cbn [Promise_catch Promise_reject ret]; try reflexivity.
  all: unfold try_catch; rewrite !bind_run; cbn [emit this log].
  all: by destruct (handle c _ _).
Qed.

Lemma handleRequest_calls now request event s route params s1 callee h :
  is_http new_URL request = true ->
  findMatchingRoute heap now (match_options new_URL request event) s
    = (Normal (route, params), s1) ->
  this s1 = this s ->
  resolved heap (this s) route = Some (callee, h) ->
  exists result tail,
    handleRequest heap new_URL now request event s =
      (Normal result,
       {| this := this s;
          log := log s1
                 ++ [(now, CallHandle callee
                             (handler_options new_URL request event params))]
                 ++ tail |})
    /\ Forall (fun c => is_catch_call c = true) tail
    /\ (_catchHandler (this s) = None ->
        result = response_of h now
                   (handler_options new_URL request event params)).
Proof.
  intros Hhttp Hfind Hthis Hres.
  rewrite (handleRequest_handled _ _ _ _ _ _ _ _ _ Hhttp Hfind Hthis Hres).
  cbn zeta. unfold response_of.
  destruct (match handle h now _ with Throws _ => _ | Returns _ => _ end)
    as [[|t [v|err]]|]; destruct (_catchHandler (this s)) as [c|].
  all: try (eexists _, []; split; [rewrite app_nil_r; reflexivity|];
            split; [constructor|done]).
  eexists _, [_]. split; [cbn [log]; by rewrite <- app_assoc|].
  split; [by repeat constructor|done].
Qed.

(** *** Precedence among routes *)

(** C1: when routes are registered one after the other under one method,
    the array of that method lists them in registration order; for a
    request of that method, [findMatchingRoute] returns the earliest route
    of the array whose match callback returns a truthy value, after
    calling [match] on that route and the routes before it and on no
    other; and [handleRequest], for an http request, then calls the
    [handle] of that route's handler and of no other route. *)
Theorem earliest_registered_route_wins
    now request event s0 rs pre route post :
  let method := Request.method request in
  let options := match_options new_URL request event in
  Forall (fun r => Route.method (heap r) = method) rs ->
  routes_of (this s0) method ++ rs = pre ++ route :: post ->
  Forall (no_match heap options) pre ->
  truthy (Route.match_ (heap route) options) = true ->
  exists s params,
    registerRoutes heap rs s0 = (Normal tt, s)
    /\ findMatchingRoute heap now options s =
         (Normal (Some route, params),
          {| this := this s;
             log := log s ++ match_calls now options (pre ++ [route]) |})
    /\ (is_http new_URL request = true ->
        exists result tail,
          handleRequest heap new_URL now request event s =
            (Normal result,
             {| this := this s;
                log := (log s ++ match_calls now options (pre ++ [route]))
                       ++ [(now, CallHandle (RouteHandler route)
                                   (handler_options new_URL request event params))]
                       ++ tail |})
          /\ Forall (fun c => is_catch_call c = true) tail
          /\ (_catchHandler (this s) = None ->
              result = response_of (Route.handler (heap route)) now
                         (handler_options new_URL request event params))).
Proof.
  intros method options Hmethod Harray Hpre Hroute.
  destruct (registerRoutes_routes method rs s0 Hmethod)
    as (s & Hreg & Hroutes & _ & _ & _).
  exists s, (normalized_params (Route.match_ (heap route) options)).
  assert (findMatchingRoute heap now options s =
            (Normal (Some route,
                     normalized_params (Route.match_ (heap route) options)),
             {| this := this s;
                log := log s ++ match_calls now options (pre ++ [route]) |}))
    as Hfind.
  { rewrite findMatchingRoute_run.
    change (default [] _) with (routes_of (this s) method).
    rewrite Hroutes, Harray. by apply loop_found. }
  split; [done|]. split; [done|]. intros Hhttp.
  by apply (handleRequest_calls _ _ _ _ _ _ _ (RouteHandler route)
              (Route.handler (heap route)) Hhttp Hfind).
Qed.

(** *** Requests that are not http *)

(** C2: for a request whose URL protocol does not start with "http",
    [handleRequest] returns [undefined] and makes no call at all: the log
    is unchanged, so no match callback and no handler is invoked, whatever
    routes are registered. *)
Theorem non_http_request_is_ignored now request event s :
  String.prefix "http" (protocol (new_URL (Request.url request))) = false ->
  handleRequest heap new_URL now request event s = (Normal None, s).
Proof. apply handleRequest_not_http. Qed.

(** *** Empty match results *)

(** C6: when the first route whose match callback answers with a truthy
    value answers with an empty array or an empty plain object,
    [findMatchingRoute] returns that route with [params] absent, and
    [handleRequest] calls the route's handler with [params] absent. *)
Theorem empty_match_result_gives_no_params
    now request event s pre route post :
  let options := match_options new_URL request event in
  routes_of (this s) (Request.method request) = pre ++ route :: post ->
  Forall (no_match heap options) pre ->
  Route.match_ (heap route) options = VArray []
  \/ Route.match_ (heap route) options = VObject [] ->
  findMatchingRoute heap now options s =
    (Normal (Some route, None),
     {| this := this s;
        log := log s ++ match_calls now options (pre ++ [route]) |})
  /\ (is_http new_URL request = true ->
      exists result tail,
        handleRequest heap new_URL now request event s =
          (Normal result,
           {| this := this s;
              log := (log s ++ match_calls now options (pre ++ [route]))
                     ++ [(now, CallHandle (RouteHandler route)
                                 (handler_options new_URL request event None))]
                     ++ tail |})
        /\ Forall (fun c => is_catch_call c = true) tail
        /\ (_catchHandler (this s) = None ->
            result = response_of (Route.handler (heap route)) now
                       (handler_options new_URL request event None))).
Proof.
  intros options Harray Hpre Hempty.
  assert (truthy (Route.match_ (heap route) options) = true
          /\ normalized_params (Route.match_ (heap route) options) = None)
    as [Htruthy Hparams].
  { by destruct Hempty as [-> | ->]. }
  assert (findMatchingRoute heap now options s =
            (Normal (Some route, None),
             {| this := this s;
                log := log s ++ match_calls now options (pre ++ [route]) |}))
    as Hfind.
  { rewrite findMatchingRoute_run.
    change (default [] _) with (routes_of (this s) (Request.method request)).
    rewrite Harray, <- Hparams. by apply loop_found. }
  split; [done|]. intros Hhttp.
  by apply (handleRequest_calls _ _ _ _ _ _ _ (RouteHandler route)
              (Route.handler (heap route)) Hhttp Hfind).
Qed.

(** *** No matching route *)

(** C7: for an http request that no registered route of its method
    matches, [handleRequest] calls the default handler, with [params]
    absent, when one is set; when none is set it returns [undefined],
    normally, having called only the match callbacks. *)
Theorem unmatched_request_goes_to_default_handler now request event s :
  let options := match_options new_URL request event in
  let routes := routes_of (this s) (Request.method request) in
  is_http new_URL request = true ->
  Forall (no_match heap options) routes ->
  match _defaultHandler (this s) with
  | Some d =>
      exists result tail,
        handleRequest heap new_URL now request event s =
          (Normal result,
           {| this := this s;
              log := (log s ++ match_calls now options routes)
                     ++ [(now, CallHandle DefaultHandler
                                 (handler_options new_URL request event None))]
                     ++ tail |})
        /\ Forall (fun c => is_catch_call c = true) tail
        /\ (_catchHandler (this s) = None ->
            result = response_of d now
                       (handler_options new_URL request event None))
  | None =>
      handleRequest heap new_URL now request event s =
        (Normal None,
         {| this := this s; log := log s ++ match_calls now options routes |})
  end.
Proof.
  intros options routes Hhttp Hnone.
  assert (findMatchingRoute heap now options s =
            (Normal (None, None),
             {| this := this s;
                log := log s ++ match_calls now options routes |}))
    as Hfind.
  { rewrite findMatchingRoute_run. by apply loop_none. }
  destruct (_defaultHandler (this s)) as [d|] eqn:Hdefault.
  - apply (handleRequest_calls _ _ _ _ _ _ _ DefaultHandler d Hhttp Hfind);
      [done|]. cbn. by rewrite Hdefault.
  - apply (handleRequest_unhandled _ _ _ _ _ _ _ Hhttp Hfind); [done|].
    cbn. by rewrite Hdefault.
Qed.

(** *** Unregistering *)

(** C3, as the code has it: [unregisterRoute] fails with
    'unregister-route-but-not-found-with-method' when the table has no
    array for the route's method (no route was ever registered under it);
    it fails with 'unregister-route-route-not-registered' when the
    method's array, empty or not, does not hold the route by identity;
    otherwise it removes the first entry identical to the route, and only
    that one, keeping the order of the others and every other array. *)
Theorem unregisterRoute_removes_first_identical route s :
  let method := Route.method (heap route) in
  (_routes (this s) !! method = None ->
   unregisterRoute heap route s =
     (Thrown (VWorkboxError "unregister-route-but-not-found-with-method"
                [("method", method)]), s))
  /\ (forall l,
        _routes (this s) !! method = Some l -> route ∉ l ->
        unregisterRoute heap route s =
          (Thrown (VWorkboxError "unregister-route-route-not-registered" []), s))
  /\ (forall l1 l2,
        _routes (this s) !! method = Some (l1 ++ route :: l2) -> route ∉ l1 ->
        unregisterRoute heap route s =
          (Normal tt,
           {| this := {| _routes := <[method := l1 ++ l2]> (_routes (this s));
                         _defaultHandler := _defaultHandler (this s);
                         _catchHandler := _catchHandler (this s) |};
              log := log s |})).
Proof.
  intros method. unfold unregisterRoute. fold method.
  rewrite bind_run. cbn [get_this]. split; [|split].
  - by intros ->.
  - intros l -> Hnotin. unfold indexOf. by rewrite indexOf_from_absent.
  - intros l1 l2 Hl Hnotin. rewrite Hl. unfold indexOf.
    rewrite indexOf_from_first by done. rewrite Z.add_0_l.
    destruct (-1 <? Z.of_nat (length l1))%Z eqn:Hlt;
      [|apply Z.ltb_ge in Hlt; lia].
    cbn [set_routes].
    rewrite (alter_lookup_insert _ _ _ _ Hl). by rewrite splice1_first.
Qed.

(** C10: when [unregisterRoute] throws, with either error, the state it
    leaves is the state it found: the whole route table, the two handlers
    and the log are unchanged. *)
Theorem unregisterRoute_failure_changes_nothing route s err s' :
  unregisterRoute heap route s = (Thrown err, s') ->
  s' = s
  /\ (err = VWorkboxError "unregister-route-but-not-found-with-method"
              [("method", Route.method (heap route))]
      \/ err = VWorkboxError "unregister-route-route-not-registered" []).
Proof.
  unfold unregisterRoute. rewrite bind_run. cbn [get_this].
  destruct (_routes (this s) !! Route.method (heap route)) as [l|].
  - destruct (-1 <? indexOf route l)%Z; [done|].
    intros [= <- <-]. auto.
  - intros [= <- <-]. auto.
Qed.

(** *** Failing handlers *)

Lemma catch_calls_app l1 l2 :
  catch_calls (l1 ++ l2) = (catch_calls l1 + catch_calls l2)%nat.
Proof. unfold catch_calls. by rewrite filter_app, length_app. Qed.

Lemma catch_calls_match_calls now options routes :
  catch_calls (match_calls now options routes) = 0%nat.
Proof.
  unfold catch_calls, match_calls.
  induction routes as [|r routes IH]; [done|].
  rewrite fmap_cons, filter_cons_False; [done|]. by cbn.
Qed.

Lemma findMatchingRoute_state now options s found s1 :
  findMatchingRoute heap now options s = (Normal found, s1) ->
  this s1 = this s /\ catch_calls (log s1) = catch_calls (log s).
Proof.
  destruct (findMatchingRoute_total now options s) as (found' & called & ->).
  intros [= _ <-]. cbn [this log].
  rewrite catch_calls_app, catch_calls_match_calls. split; [done|lia].
Qed.

Lemma resolved_is_not_catch r route callee h t options :
  resolved heap r route = Some (callee, h) ->
  catch_calls [(t, CallHandle callee options)] = 0%nat.
Proof.
  unfold resolved. destruct route as [route|].
  - by intros [= <- _].
  - destruct (_defaultHandler r); [|done]. by intros [= <- _].
Qed.

Lemma catch_calls_catch t options :
  catch_calls [(t, CallHandle CatchHandler options)] = 1%nat.
Proof. reflexivity. Qed.

(** C4: when the handler that [handleRequest] resolves throws
    synchronously, [handleRequest] still returns a promise, normally; with
    a catch handler set, the catch handler is called exactly once more
    than before; with none set, the promise returned is rejected with the
    thrown value and the catch handler is not called. *)
Theorem synchronous_throw_becomes_rejection
    now request event s route params s1 callee h err :
  let options := handler_options new_URL request event params in
  is_http new_URL request = true ->
  findMatchingRoute heap now (match_options new_URL request event) s
    = (Normal (route, params), s1) ->
  resolved heap (this s) route = Some (callee, h) ->
  handle h now options = Throws err ->
  exists p s',
    handleRequest heap new_URL now request event s = (Normal (Some p), s')
    /\ match _catchHandler (this s) with
       | Some _ => catch_calls (log s') = S (catch_calls (log s))
       | None => p = SettlesAt now (Rejected err)
                 /\ catch_calls (log s') = catch_calls (log s)
       end.
Proof.
  intros options Hhttp Hfind Hres Hthrow.
  destruct (findMatchingRoute_state _ _ _ _ _ Hfind) as [Hthis Hcount].
  rewrite (handleRequest_handled _ _ _ _ _ _ _ _ _ Hhttp Hfind Hthis Hres).
  cbn zeta. fold options. rewrite Hthrow. unfold Promise_reject at 1.
  destruct (_catchHandler (this s)) as [c|].
  - eexists _, _. split; [reflexivity|]. cbn [log].
    rewrite !catch_calls_app, Hcount, (resolved_is_not_catch _ _ _ _ _ _ Hres).
    rewrite catch_calls_catch. lia.
  - eexists _, _. split; [reflexivity|]. cbn [log]. split; [done|].
    rewrite catch_calls_app, Hcount, (resolved_is_not_catch _ _ _ _ _ _ Hres).
    lia.
Qed.

(** C5: with a catch handler set, when the resolved handler's result
    fails, by a synchronous throw or by a promise that rejects at tick
    [t], the catch handler's [handle] is called once the failure is there,
    with [{url, request, event}] and no [params]; the promise
    [handleRequest] returns then follows the catch handler: it fulfils
    with the fallback response when the catch handler's promise fulfils,
    and it rejects when the catch handler's promise rejects or the catch
    handler throws. *)
Theorem catch_handler_result_is_final
    now request event s route params s1 callee h c t err :
  let options := handler_options new_URL request event params in
  let fallback := handler_options new_URL request event None in
  let t' := (now `max` t)%nat in
  is_http new_URL request = true ->
  findMatchingRoute heap now (match_options new_URL request event) s
    = (Normal (route, params), s1) ->
  resolved heap (this s) route = Some (callee, h) ->
  _catchHandler (this s) = Some c ->
  (handle h now options = Throws err /\ t = now)
  \/ handle h now options = Returns (Some (SettlesAt t (Rejected err))) ->
  exists p,
    handleRequest heap new_URL now request event s =
      (Normal (Some p),
       {| this := this s;
          log := log s1 ++ [(now, CallHandle callee options);
                            (t', CallHandle CatchHandler fallback)] |})
    /\ (forall tq v,
          handle c t' fallback = Returns (Some (SettlesAt tq (Fulfilled v))) ->
          p = SettlesAt (t' `max` tq) (Fulfilled v))
    /\ (forall tq err',
          handle c t' fallback = Returns (Some (SettlesAt tq (Rejected err'))) ->
          p = SettlesAt (t' `max` tq) (Rejected err'))
    /\ (forall err',
          handle c t' fallback = Throws err' -> p = SettlesAt t' (Rejected err')).
Proof.
  intros options fallback t' Hhttp Hfind Hres Hcatch Hfails.
  destruct (findMatchingRoute_state _ _ _ _ _ Hfind) as [Hthis _].
  rewrite (handleRequest_handled _ _ _ _ _ _ _ _ _ Hhttp Hfind Hthis Hres).
  cbn zeta. fold options fallback. rewrite Hcatch.
  assert (match handle h now options with
          | Throws err0 => Some (Promise_reject now err0)
          | Returns p => p
          end = Some (SettlesAt t (Rejected err))) as ->.
  { destruct Hfails as [[-> ->] | ->]; reflexivity. }
  fold t'. eexists. split; [cbn [log]; by rewrite <- app_assoc|].
  split; [|split].
  - by intros tq v ->.
  - by intros tq err' ->.
  - by intros err' ->.
Qed.

(** *** Totality and frame *)

Lemma handleRequest_total now request event s :
  exists result s',
    handleRequest heap new_URL now request event s = (Normal result, s')
    /\ this s' = this s.
Proof.
  destruct (is_http new_URL request) eqn:Hhttp.
  - destruct (findMatchingRoute_total now (match_options new_URL request event) s)
      as ([route params] & called & Hfind).
    destruct (resolved heap (this s) route) as [[callee h]|] eqn:Hres.
    + destruct (handleRequest_calls _ _ _ _ _ _ _ _ _ Hhttp Hfind eq_refl Hres)
        as (result & tail & -> & _ & _).
      by eexists _, _.
    + rewrite (handleRequest_unhandled _ _ _ _ _ _ _ Hhttp Hfind eq_refl Hres).
      by eexists _, _.
  - rewrite handleRequest_not_http by done. by eexists _, _.
Qed.

Lemma mapM_ext {A B} (f g : A -> M B) l s :
  (forall a s', f a s' = g a s') -> mapM f l s = mapM g l s.
Proof.
  intros Hfg. revert s. induction l as [|a l IH]; intros s; [done|].
  cbn [mapM]. rewrite !bind_run, Hfg. destruct (g a s) as [[b|e] s']; [|done].
  rewrite !bind_run, IH. reflexivity.
Qed.

Lemma mapM_handleRequest_total {A} now (f : A -> Request) l s :
  exists results s1,
    mapM (fun a => handleRequest heap new_URL now (f a) None) l s
      = (Normal results, s1)
    /\ length results = length l
    /\ this s1 = this s.
Proof.
  revert s. induction l as [|a l IH]; intros s; cbn [mapM].
  - by exists [], s.
  - destruct (handleRequest_total now (f a) None s) as (x & s' & Hx & Hthis).
    destruct (IH s') as (xs & s1 & Hxs & Hlen & Hthis1).
    exists (x :: xs), s1. rewrite bind_run, Hx, bind_run, Hxs.
    cbn [length]. by rewrite Hlen, Hthis1, Hthis.
Qed.

(** C9: matching and request handling only read the router: after
    [findMatchingRoute], after [handleRequest] and after the message
    listener built on it, the route table, the default handler and the
    catch handler are what they were before the call.  The four mutators
    are the operations that write them: [registerRoute] extends the array
    of the route's method, and the two setters store the normalised
    handler. *)
Theorem matching_and_handling_only_read_the_router now :
  (forall options s, this (findMatchingRoute heap now options s).2 = this s)
  /\ (forall request event s,
        this (handleRequest heap new_URL now request event s).2 = this s)
  /\ (forall event s,
        this (addCacheListener_listener heap new_URL new_Request now event s).2
          = this s)
  /\ (forall route s,
        routes_of (this (registerRoute heap route s).2) (Route.method (heap route))
          = routes_of (this s) (Route.method (heap route)) ++ [route])
  /\ (forall handler s,
        _defaultHandler (this (setDefaultHandler handler s).2)
          = Some (normalizeHandler handler))
  /\ (forall handler s,
        _catchHandler (this (setCatchHandler handler s).2)
          = Some (normalizeHandler handler)).
Proof.
  split; [|split; [|split; [|split; [|split]]]].
  - intros options s.
    by destruct (findMatchingRoute_total now options s) as (? & ? & ->).
  - intros request event s.
    by destruct (handleRequest_total now request event s) as (? & ? & -> & ?).
  - intros event s. unfold addCacheListener_listener.
    destruct (data event) as [d|]; [|done].
    destruct (String.eqb (type d) "CACHE_URLS"); [|done].
    rewrite bind_run.
    match goal with |- context [mapM ?f ?l s] =>
      rewrite (mapM_ext f (fun entry => handleRequest heap new_URL now
                               (request_of new_Request entry) None))
        by (by intros []) end.
    destruct (mapM_handleRequest_total now (request_of new_Request)
                (urlsToCache d) s) as (results & s1 & -> & _ & Hthis).
    rewrite bind_run. cbn [emit].
    destruct (ports event) as [|port ?]; [done|].
    by destruct (Promise_all now results) as [|t [v|err]].
  - intros route s. rewrite registerRoute_run. unfold routes_of.
    cbn [snd this _routes]. by rewrite lookup_insert_eq.
  - done.
  - done.
Qed.

(** *** The cache-priming listener *)

Lemma settled_by_mono t t' x : t <= t' -> settled_by t x -> settled_by t' x.
Proof. destruct x as [[|tx st]|]; cbn; [done|lia|done]. Qed.

Lemma all_fulfilled_resolve now results :
  forallb fulfils results = true ->
  first_rejection (Promise_resolve now <$> results) = None
  /\ exists t vs,
       all_fulfilled (Promise_resolve now <$> results) = Some (t, vs)
       /\ Forall (settled_by (now `max` t)) results.
Proof.
  induction results as [|x xs IH]; cbn [forallb].
  - intros _. split; [done|]. by exists 0%nat, [].
  - intros [Hx Hxs]%andb_true_iff.
    destruct (IH Hxs) as (Hrej & t & vs & Hall & Hby).
    rewrite fmap_cons. cbn [first_rejection all_fulfilled].
    destruct x as [[|tx [v|err]]|]; try done;
      cbn [Promise_resolve]; rewrite Hrej, Hall.
    + split; [done|]. eexists _, _. split; [reflexivity|].
      constructor; [cbn; lia|].
      eapply Forall_impl; [exact Hby|]. intros y. apply settled_by_mono. lia.
    + split; [done|]. eexists _, _. split; [reflexivity|].
      constructor; [done|].
      eapply Forall_impl; [exact Hby|]. intros y. apply settled_by_mono. lia.
Qed.

Lemma not_all_fulfilled now results :
  forallb fulfils results = false ->
  all_fulfilled (Promise_resolve now <$> results) = None.
Proof.
  induction results as [|x xs IH]; cbn [forallb]; [done|].
  rewrite fmap_cons. cbn [all_fulfilled].
  destruct x as [[|tx [v|err]]|]; cbn [fulfils Promise_resolve andb];
    try done; intros Hxs; by rewrite IH.
Qed.

Lemma Promise_all_fulfils now results :
  forallb fulfils results = true ->
  exists t vs,
    Promise_all now results = SettlesAt t (Fulfilled (VArray vs))
    /\ now <= t /\ Forall (settled_by t) results.
Proof.
  intros Hall. unfold Promise_all.
  destruct (all_fulfilled_resolve now results Hall) as (-> & t & vs & -> & Hby).
  exists (now `max` t)%nat, vs. split; [done|]. split; [lia|done].
Qed.

Lemma Promise_all_fails now results :
  forallb fulfils results = false ->
  Promise_all now results = Pending
  \/ exists t err, Promise_all now results = SettlesAt t (Rejected err).
Proof.
  intros Hnot. unfold Promise_all. rewrite (not_all_fulfilled now results Hnot).
  destruct (first_rejection _) as [[t err]|]; [right; by eexists _, _|by left].
Qed.

(** C8, as the code has it: on a 'CACHE_URLS' message the listener runs
    one [handleRequest] per entry of [urlsToCache], in order, and hands
    [Promise.all] of the results to [waitUntil]; when the message carries
    a reply port, the acknowledgement [true] is posted on the first port
    at a tick by which every derived operation has settled, and it is
    posted only when all of them have succeeded; when one of them fails or
    never settles, nothing is posted. *)
Theorem cache_message_acknowledged_when_all_fulfil now event d s :
  data event = Some d ->
  type d = "CACHE_URLS" ->
  exists results s1 ack,
    mapM (fun entry =>
            handleRequest heap new_URL now (request_of new_Request entry) None)
         (urlsToCache d) s = (Normal results, s1)
    /\ length results = length (urlsToCache d)
    /\ addCacheListener_listener heap new_URL new_Request now event s =
         (Normal tt,
          {| this := this s;
             log := log s1
                    ++ [(now, CallWaitUntil (Promise_all now results))]
                    ++ ack |})
    /\ match ports event with
       | port :: _ =>
           if forallb fulfils results
           then exists t,
                  ack = [(t, CallPostMessage port (VBool true))]
                  /\ now <= t /\ Forall (settled_by t) results
           else ack = []
       | [] => ack = []
       end.
Proof.
  intros Hdata Htype.
  destruct (mapM_handleRequest_total now (request_of new_Request)
              (urlsToCache d) s) as (results & s1 & Hmap & Hlen & Hthis).
  exists results, s1.
  assert (addCacheListener_listener heap new_URL new_Request now event s =
            match ports event with
            | port :: _ =>
                match Promise_all now results with
                | SettlesAt t (Fulfilled _) =>
                    emit t (CallPostMessage port (VBool true))
                | _ => ret tt
                end
            | [] => ret tt
            end {| this := this s;
                   log := log s1
                          ++ [(now, CallWaitUntil (Promise_all now results))] |})
    as ->.
  { unfold addCacheListener_listener.
    rewrite Hdata, Htype, String.eqb_refl, bind_run.
    match goal with |- context [mapM ?f ?l s] =>
      rewrite (mapM_ext f (fun entry => handleRequest heap new_URL now
                               (request_of new_Request entry) None))
        by (by intros []) end.
    rewrite Hmap, bind_run. cbn [emit]. rewrite Hthis.
    destruct (ports event) as [|port ?]; [done|].
    by destruct (Promise_all now results) as [|t [v|err]]. }
  destruct (ports event) as [|port ?].
  - exists []. rewrite app_nil_r. by repeat split.
  - destruct (forallb fulfils results) eqn:Hall.
    + destruct (Promise_all_fulfils now results Hall)
        as (t & vs & HP & Hle & Hby).
      exists [(t, CallPostMessage port (VBool true))].
      rewrite HP. split; [done|]. split; [done|]. split.
      { unfold emit. cbn [this log]. by rewrite <- app_assoc. }
      by exists t.
    + exists []. rewrite app_nil_r.
      destruct (Promise_all_fails now results Hall) as [HP|(t & err & HP)];
        rewrite HP; by repeat split.
Qed.

End Properties.

(** * The scenarios of the specification, run on the concrete worker *)

Import Scenario.

(** Route A, then route B, both for GET /a: A is selected, B is not asked. *)
Lemma earliest_registered_route_wins_scenario :
  let request := get "a" in
  let options := match_options new_URL request None in
  exists s params,
    registerRoutes heap [0; 1]%nat fresh = (Normal tt, s)
    /\ findMatchingRoute heap 0 options s =
         (Normal (Some 0%nat, params),
          {| this := this s; log := log s ++ match_calls 0 options [0%nat] |})
    /\ (is_http new_URL request = true ->
        exists result tail,
          handleRequest heap new_URL 0 request None s =
            (Normal result,
             {| this := this s;
                log := (log s ++ match_calls 0 options [0%nat])
                       ++ [(0%nat, CallHandle (RouteHandler 0)
                                     (handler_options new_URL request None params))]
                       ++ tail |})
          /\ Forall (fun c => is_catch_call c = true) tail
          /\ (_catchHandler (this s) = None ->
              result = response_of (Route.handler (heap 0%nat)) 0
                         (handler_options new_URL request None params))).
Proof.
  apply (earliest_registered_route_wins heap new_URL 0 (get "a") None fresh
           [0; 1]%nat [] 0%nat [1%nat]).
  - repeat constructor.
  - reflexivity.
  - constructor.
  - reflexivity.
Defined.

(** A data: URL is ignored although a registered route matches everything. *)
Lemma non_http_request_is_ignored_scenario :
  let s := after (registerRoutes heap [7]%nat) in
  handleRequest heap new_URL 0 (get "data:text/plain,hi") None s = (Normal None, s).
Proof.
  apply (non_http_request_is_ignored heap new_URL 0 (get "data:text/plain,hi")
           None (after (registerRoutes heap [7]%nat))).
  reflexivity.
Defined.

(** The three cases of [unregisterRoute]: nothing registered under GET; an
    object equal to route A but not the registered one; route [0] registered
    twice, of which the first entry goes. *)
Lemma unregisterRoute_removes_first_identical_scenario :
  unregisterRoute heap 0%nat fresh =
    (Thrown (VWorkboxError "unregister-route-but-not-found-with-method"
               [("method", "GET")]), fresh)
  /\ (let s := after (registerRoutes heap [0; 1]%nat) in
      unregisterRoute heap 8%nat s =
        (Thrown (VWorkboxError "unregister-route-route-not-registered" []), s))
  /\ (let s := after (registerRoutes heap [1; 0; 5; 0]%nat) in
      unregisterRoute heap 0%nat s =
        (Normal tt,
         {| this := {| _routes := <["GET" := [1] ++ [5; 0]]> (_routes (this s));
                       _defaultHandler := _defaultHandler (this s);
                       _catchHandler := _catchHandler (this s) |};
            log := log s |}))%nat.
Proof.
  split; [|split].
  - apply (proj1 (unregisterRoute_removes_first_identical heap 0%nat fresh)).
    reflexivity.
  - apply (proj1 (proj2 (unregisterRoute_removes_first_identical heap 8%nat
                           (after (registerRoutes heap [0; 1]%nat))))
             [0; 1]%nat).
    + reflexivity.
    + repeat (apply not_elem_of_cons; split; [discriminate|]).
      apply not_elem_of_nil.
  - apply (proj2 (proj2 (unregisterRoute_removes_first_identical heap 0%nat
                           (after (registerRoutes heap [1; 0; 5; 0]%nat))))
             [1]%nat [5; 0]%nat).
    + reflexivity.
    + repeat (apply not_elem_of_cons; split; [discriminate|]).
      apply not_elem_of_nil.
Defined.

(** C3 as stated fails: once its only route is unregistered, GET has zero
    registered routes, and unregistering again is reported as
    'unregister-route-route-not-registered', not as the error about the
    method. *)
Lemma unregister_again_reports_route_not_registered :
  let s := after (registerRoute heap 0%nat;; unregisterRoute heap 0%nat) in
  routes_of (this s) "GET" = []
  /\ unregisterRoute heap 0%nat s =
       (Thrown (VWorkboxError "unregister-route-route-not-registered" []), s)
  /\ (unregisterRoute heap 0%nat s).1 <>
       Thrown (VWorkboxError "unregister-route-but-not-found-with-method"
                 [("method", "GET")]).
Proof. split; [|split]; [reflexivity|reflexivity|discriminate]. Qed.

Lemma unregisterRoute_failure_changes_nothing_scenario :
  let s := after (registerRoutes heap [0; 1]%nat) in
  let err := VWorkboxError "unregister-route-route-not-registered" [] in
  unregisterRoute heap 8%nat s = (Thrown err, s)
  /\ (s = s
      /\ (err = VWorkboxError "unregister-route-but-not-found-with-method"
                  [("method", Route.method (heap 8%nat))]
          \/ err = VWorkboxError "unregister-route-route-not-registered" [])).
Proof.
  split; [reflexivity|].
  apply (unregisterRoute_failure_changes_nothing heap 8%nat
           (after (registerRoutes heap [0; 1]%nat))).
  reflexivity.
Defined.

(** Route [3] throws synchronously: with a catch handler the catch handler
    is called once, without one the returned promise is rejected. *)
Lemma synchronous_throw_becomes_rejection_scenario :
  (let s := after (registerRoutes heap [0; 3]%nat;;
                   setCatchHandler (HandlerObject (responds "fallback"))) in
   exists p s',
     handleRequest heap new_URL 0 (get "throw") None s = (Normal (Some p), s')
     /\ catch_calls (log s') = S (catch_calls (log s)))
  /\ (let s := after (registerRoutes heap [0; 3]%nat) in
      exists p s',
        handleRequest heap new_URL 0 (get "throw") None s = (Normal (Some p), s')
        /\ p = SettlesAt 0 (Rejected (VStr "boom"))
           /\ catch_calls (log s') = catch_calls (log s)).
Proof.
  split.
  - pose (s := after (registerRoutes heap [0; 3]%nat;;
                      setCatchHandler (HandlerObject (responds "fallback")))).
    apply (synchronous_throw_becomes_rejection heap new_URL 0 (get "throw") None
             s (Some 3%nat) None
             (findMatchingRoute heap 0 (match_options new_URL (get "throw") None) s).2
             (RouteHandler 3) (throws "boom") (VStr "boom"));
      reflexivity.
  - pose (s := after (registerRoutes heap [0; 3]%nat)).
    apply (synchronous_throw_becomes_rejection heap new_URL 0 (get "throw") None
             s (Some 3%nat) None
             (findMatchingRoute heap 0 (match_options new_URL (get "throw") None) s).2
             (RouteHandler 3) (throws "boom") (VStr "boom"));
      reflexivity.
Defined.

(** Route [4] answers with a promise that rejects at tick [1]; the catch
    handler is then called, with no params, and its fallback response is
    what the caller gets at tick [2]. *)
Lemma catch_handler_result_is_final_scenario :
  let s := after (registerRoutes heap [4]%nat;;
                  setCatchHandler (HandlerObject (responds "fallback"))) in
  let request := get "x.js" in
  let s1 := (findMatchingRoute heap 0 (match_options new_URL request None) s).2 in
  let fallback := handler_options new_URL request None None in
  exists p,
    handleRequest heap new_URL 0 request None s =
      (Normal (Some p),
       {| this := this s;
          log := log s1 ++ [(0, CallHandle (RouteHandler 4) fallback);
                            (1, CallHandle CatchHandler fallback)] |})%nat
    /\ p = SettlesAt 2 (Fulfilled (VStr "fallback")).
Proof.
  intros s request s1 fallback.
  destruct (catch_handler_result_is_final heap new_URL 0 request None
              s (Some 4%nat) None s1 (RouteHandler 4) (rejects "offline")
              (responds "fallback") 1 (VStr "offline"))
    as (p & Hrun & Hfulfils & _); [reflexivity ..| |].
  - right. reflexivity.
  - exists p. split; [exact Hrun|]. apply (Hfulfils 2%nat). reflexivity.
Defined.

(** Route [2] answers GET /empty with an empty array: it is selected, and
    its handler gets no params. *)
Lemma empty_match_result_gives_no_params_scenario :
  let s := after (registerRoutes heap [0; 2]%nat) in
  let request := get "empty" in
  let options := match_options new_URL request None in
  findMatchingRoute heap 0 options s =
    (Normal (Some 2%nat, None),
     {| this := this s; log := log s ++ match_calls 0 options [0; 2]%nat |})
  /\ (is_http new_URL request = true ->
      exists result tail,
        handleRequest heap new_URL 0 request None s =
          (Normal result,
           {| this := this s;
              log := (log s ++ match_calls 0 options [0; 2]%nat)
                     ++ [(0%nat, CallHandle (RouteHandler 2)
                                   (handler_options new_URL request None None))]
                     ++ tail |})
        /\ Forall (fun c => is_catch_call c = true) tail
        /\ (_catchHandler (this s) = None ->
            result = response_of (Route.handler (heap 2%nat)) 0
                       (handler_options new_URL request None None))).
Proof.
  apply (empty_match_result_gives_no_params heap new_URL 0 (get "empty") None
           (after (registerRoutes heap [0; 2]%nat)) [0%nat] 2%nat []).
  - reflexivity.
  - repeat constructor.
  - left. reflexivity.
Defined.

(** No routes, a default handler: any GET request is handed to it, with no
    params; with no default handler either, the request is not handled. *)
Lemma unmatched_request_goes_to_default_handler_scenario :
  (let s := after (setDefaultHandler (HandlerObject (responds "default"))) in
   let request := get "anything" in
   exists result tail,
     handleRequest heap new_URL 0 request None s =
       (Normal result,
        {| this := this s;
           log := (log s ++ [])
                  ++ [(0%nat, CallHandle DefaultHandler
                                (handler_options new_URL request None None))]
                  ++ tail |})
     /\ Forall (fun c => is_catch_call c = true) tail
     /\ (_catchHandler (this s) = None ->
         result = response_of (responds "default") 0
                    (handler_options new_URL request None None)))
  /\ (let s := after (registerRoutes heap [0; 1]%nat) in
      let request := get "anything" in
      handleRequest heap new_URL 0 request None s =
        (Normal None,
         {| this := this s;
            log := log s ++ match_calls 0 (match_options new_URL request None)
                              [0; 1]%nat |})).
Proof.
  split.
  - apply (unmatched_request_goes_to_default_handler heap new_URL 0
             (get "anything") None
             (after (setDefaultHandler (HandlerObject (responds "default"))))).
    + reflexivity.
    + constructor.
  - apply (unmatched_request_goes_to_default_handler heap new_URL 0
             (get "anything") None (after (registerRoutes heap [0; 1]%nat))).
    + reflexivity.
    + repeat constructor.
Defined.

(** The message of the specification: two entries, two derived requests,
    and the acknowledgement at tick [1], when both responses are there. *)
Lemma cache_message_acknowledged_when_all_fulfil_scenario :
  let s := after (registerRoutes heap [6; 5]%nat) in
  let urls := [EntryString "./x.js"; EntryArray "./y.js" (Some no_cors)] in
  exists results s1 ack,
    mapM (fun entry =>
            handleRequest heap new_URL 0 (request_of new_Request entry) None)
         urls s = (Normal results, s1)
    /\ length results = 2%nat
    /\ addCacheListener_listener heap new_URL new_Request 0 (cache_urls urls) s =
         (Normal tt,
          {| this := this s;
             log := log s1 ++ [(0%nat, CallWaitUntil (Promise_all 0 results))]
                    ++ ack |})
    /\ ack = [(1%nat, CallPostMessage 7%nat (VBool true))].
Proof.
  intros s urls.
  destruct (cache_message_acknowledged_when_all_fulfil heap new_URL new_Request
              0 (cache_urls urls) {| type := "CACHE_URLS"; urlsToCache := urls |}
              s eq_refl eq_refl)
    as (results & s1 & ack & Hmap & Hlen & Hrun & Hack).
  exists results, s1, ack. repeat split; try assumption.
  vm_compute in Hmap. injection Hmap as <- <-.
  vm_compute in Hrun. by injection Hrun as <-.
Defined.

(** C8 as stated fails: the single derived request settles, by rejecting at
    tick [1], the message carries a reply port, and yet no acknowledgement
    is ever posted. *)
Lemma failed_priming_request_is_not_acknowledged :
  let s := after (registerRoutes heap [4]%nat) in
  let urls := [EntryString "./x.js"] in
  (mapM (fun entry =>
           handleRequest heap new_URL 0 (request_of new_Request entry) None)
        urls s).1 = Normal [Some (SettlesAt 1 (Rejected (VStr "offline")))]
  /\ ports (cache_urls urls) = [7%nat]
  /\ filter (fun c => is_post_call c = true)
        (log (addCacheListener_listener heap new_URL new_Request 0
                (cache_urls urls) s).2) = [].
Proof. split; [|split]; reflexivity. Qed.


(** * Further properties of the router *)

Section MoreProperties.

Variable heap : loc -> Route.
Variable new_URL : string -> URL.
Variable new_Request : string -> option RequestInit -> Request.

(** Among any routes, either none matches or there is a first that does. *)
Lemma first_match_cases options (routes : list loc) :
  Forall (no_match heap options) routes
  \/ exists pre route post,
       routes = pre ++ route :: post
       /\ Forall (no_match heap options) pre
       /\ truthy (Route.match_ (heap route) options) = true.
Proof.
  induction routes as [|r routes IH]; [by left|].
  destruct (truthy (Route.match_ (heap r) options)) eqn:Hr.
  - right. by exists [], r, routes.
  - destruct IH as [Hnone|(pre & route & post & -> & Hpre & Hroute)].
    + left. by constructor.
    + right. exists (r :: pre), route, post. split; [done|].
      split; [by constructor|done].
Qed.


(** *** The route table *)

Lemma table_wf_insert r method l :
  table_wf heap r ->
  Forall (fun route => Route.method (heap route) = method) l ->
  table_wf heap {| _routes := <[method := l]> (_routes r);
                   _defaultHandler := _defaultHandler r;
                   _catchHandler := _catchHandler r |}.
Proof.
  intros Hwf Hl m l'. cbn [_routes]. rewrite lookup_insert.
  case_decide; [by intros [= <-]; subst|]. apply Hwf.
Qed.

Lemma unregisterRoute_first route s l1 l2 :
  let method := Route.method (heap route) in
  _routes (this s) !! method = Some (l1 ++ route :: l2) ->
  route ∉ l1 ->
  unregisterRoute heap route s =
    (Normal tt,
     {| this := {| _routes := <[method := l1 ++ l2]> (_routes (this s));
                   _defaultHandler := _defaultHandler (this s);
                   _catchHandler := _catchHandler (this s) |};
        log := log s |}).
Proof.
  intros method Hl Hl1. unfold unregisterRoute. fold method.
  rewrite bind_run. cbn [get_this]. rewrite Hl. unfold indexOf.
  rewrite indexOf_from_first by done. rewrite Z.add_0_l.
  destruct (-1 <? Z.of_nat (length l1))%Z eqn:Hlt;
    [|apply Z.ltb_ge in Hlt; lia].
  cbn [set_routes].
  rewrite (alter_lookup_insert _ _ _ _ Hl). by rewrite splice1_first.
Qed.

Lemma unregisterRoute_cases route s :
  let method := Route.method (heap route) in
  (exists err, unregisterRoute heap route s = (Thrown err, s))
  \/ exists l1 l2,
       _routes (this s) !! method = Some (l1 ++ route :: l2)
       /\ (route ∉ l1)
       /\ unregisterRoute heap route s =
            (Normal tt,
             {| this := {| _routes := <[method := l1 ++ l2]> (_routes (this s));
                           _defaultHandler := _defaultHandler (this s);
                           _catchHandler := _catchHandler (this s) |};
                log := log s |}).
Proof.
  intros method.
  destruct (_routes (this s) !! method) as [l|] eqn:Hl.
  - destruct (decide (route ∈ l)) as [Hin|Hnotin].
    + right. apply list_elem_of_split_l in Hin as (l1 & l2 & -> & Hl1).
      exists l1, l2. split; [done|]. split; [done|].
      by apply unregisterRoute_first.
    + left. unfold unregisterRoute. fold method.
      rewrite bind_run. cbn [get_this]. rewrite Hl. unfold indexOf.
      rewrite indexOf_from_absent by done. by eexists.
  - left. unfold unregisterRoute. fold method.
    rewrite bind_run. cbn [get_this]. rewrite Hl. by eexists.
Qed.

Lemma table_wf_constructor : table_wf heap constructor.
Proof. intros m l. cbn. by rewrite lookup_empty. Qed.

Lemma table_wf_registerRoute route s :
  table_wf heap (this s) -> table_wf heap (this (registerRoute heap route s).2).
Proof.
  intros Hwf. rewrite registerRoute_run. cbn [snd this].
  apply table_wf_insert; [done|]. apply Forall_app. split; [|by repeat constructor].
  destruct (_routes (this s) !! Route.method (heap route)) as [l|] eqn:Hl;
    [by apply (Hwf _ l)|by constructor].
Qed.

Lemma table_wf_unregisterRoute route s :
  table_wf heap (this s) -> table_wf heap (this (unregisterRoute heap route s).2).
Proof.
  intros Hwf.
  destruct (unregisterRoute_cases route s) as [[err ->]|(l1 & l2 & Hl & _ & ->)];
    [done|].
  cbn [snd this]. apply table_wf_insert; [done|].
  apply Hwf in Hl. apply Forall_app in Hl as [Hl1 Hl2].
  apply Forall_cons in Hl2 as [_ Hl2]. by apply Forall_app.
Qed.

(** X2: the route table stays well formed: in a fresh router, and after
    each of the four mutators, every route listed under a method is a route
    of that method. *)
Theorem route_table_stays_well_formed s :
  table_wf heap constructor
  /\ (table_wf heap (this s) ->
      (forall route, table_wf heap (this (registerRoute heap route s).2))
      /\ (forall route, table_wf heap (this (unregisterRoute heap route s).2))
      /\ (forall handler, table_wf heap (this (setDefaultHandler handler s).2))
      /\ (forall handler, table_wf heap (this (setCatchHandler handler s).2))).
Proof.
  split; [apply table_wf_constructor|].
  intros Hwf. split; [|split; [|split]].
  - intros route. by apply table_wf_registerRoute.
  - intros route. by apply table_wf_unregisterRoute.
  - done.
  - done.
Qed.

(** X3: registering a route that is not registered and unregistering it
    again succeeds and gives back the route sequence of every method, the
    two handlers and the log; the method keeps an array in the table
    afterwards, an empty one if it had none before. *)
Theorem register_then_unregister_restores_routes route s :
  let method := Route.method (heap route) in
  route ∉ routes_of (this s) method ->
  exists s',
    (registerRoute heap route;; unregisterRoute heap route) s = (Normal tt, s')
    /\ (forall m, routes_of (this s') m = routes_of (this s) m)
    /\ _routes (this s') !! method = Some (routes_of (this s) method)
    /\ _defaultHandler (this s') = _defaultHandler (this s)
    /\ _catchHandler (this s') = _catchHandler (this s)
    /\ log s' = log s.
Proof.
  intros method Hnotin. rewrite bind_run, registerRoute_run. fold method.
  match goal with |- context [unregisterRoute heap route ?s1] =>
    rewrite (unregisterRoute_first route s1 (routes_of (this s) method) [])
      by (try done; apply lookup_insert_eq) end.
  eexists. split; [reflexivity|].
  cbn [this _routes _defaultHandler _catchHandler log]. fold method.
  rewrite app_nil_r, insert_insert_eq.
  split; [|by rewrite lookup_insert_eq].
  intros m. unfold routes_of. cbn [_routes]. rewrite lookup_insert.
  case_decide; [by subst|done].
Qed.

(** X4: registering a route that is already registered and then
    unregistering it once does not undo the registration: the entry removed
    is the earlier one, so the route ends up last in its method's
    sequence. *)
Theorem reregistered_route_moves_last route s l1 l2 :
  let method := Route.method (heap route) in
  routes_of (this s) method = l1 ++ route :: l2 ->
  route ∉ l1 ->
  exists s',
    (registerRoute heap route;; unregisterRoute heap route) s = (Normal tt, s')
    /\ routes_of (this s') method = l1 ++ l2 ++ [route]
    /\ (forall m, m <> method -> routes_of (this s') m = routes_of (this s) m).
Proof.
  intros method Hl Hl1. rewrite bind_run, registerRoute_run. fold method.
  change (default [] _) with (routes_of (this s) method). rewrite Hl.
  match goal with |- context [unregisterRoute heap route ?s1] =>
    rewrite (unregisterRoute_first route s1 l1 (l2 ++ [route]))
      by (try done; fold method; cbn [this _routes];
          by rewrite lookup_insert_eq, <- app_assoc) end.
  eexists. split; [reflexivity|].
  unfold routes_of. cbn [this _routes]. fold method.
  rewrite insert_insert_eq. split; [by rewrite lookup_insert_eq|].
  intros m Hm. by rewrite lookup_insert_ne.
Qed.

(** *** Matching after changes of the table *)

(** [findMatchingRoute] asks and returns routes of the request's method
    only. *)
Lemma findMatchingRoute_within now options s :
  let routes := routes_of (this s) (Request.method (mo_request options)) in
  exists found called,
    findMatchingRoute heap now options s =
      (Normal found,
       {| this := this s; log := log s ++ match_calls now options called |})
    /\ Forall (fun r => r ∈ routes) called
    /\ (forall r, found.1 = Some r -> r ∈ routes).
Proof.
  intros routes. rewrite findMatchingRoute_run.
  change (default [] _) with routes. clearbody routes.
  destruct (first_match_cases options routes)
    as [Hnone|(pre & route & post & -> & Hpre & Hroute)].
  - rewrite (loop_none heap now options routes s Hnone).
    eexists _, routes. split; [reflexivity|]. split; [|done].
    by apply Forall_forall.
  - rewrite (loop_found heap now options pre route post s Hpre Hroute).
    eexists _, _. split; [reflexivity|]. split.
    + apply Forall_forall. intros r Hr.
      apply elem_of_app in Hr as [Hr|Hr%list_elem_of_singleton];
        apply elem_of_app; [by left|right; subst; by left].
    + intros r [= <-]. apply elem_of_app. right. by left.
Qed.

(** X5: once a route that was registered once is unregistered, matching
    never selects it and never calls its match callback again, whatever the
    request. *)
Theorem unregistered_route_is_never_matched route s l1 l2 now options :
  let method := Route.method (heap route) in
  table_wf heap (this s) ->
  _routes (this s) !! method = Some (l1 ++ route :: l2) ->
  route ∉ l1 ->
  route ∉ l2 ->
  exists s1 found called,
    unregisterRoute heap route s = (Normal tt, s1)
    /\ findMatchingRoute heap now options s1 =
         (Normal found,
          {| this := this s1; log := log s1 ++ match_calls now options called |})
    /\ (route ∉ called)
    /\ found.1 <> Some route.
Proof.
  intros method Hwf Hl Hl1 Hl2.
  rewrite (unregisterRoute_first route s l1 l2 Hl Hl1). fold method.
  eexists. 
  match goal with |- context [findMatchingRoute heap now options ?s1] =>
    destruct (findMatchingRoute_within now options s1)
      as (found & called & Hrun & Hcalled & Hfound) end.
  exists found, called. split; [done|]. split; [exact Hrun|].
  assert (route ∉ routes_of
            {| _routes := <[method := l1 ++ l2]> (_routes (this s));
               _defaultHandler := _defaultHandler (this s);
               _catchHandler := _catchHandler (this s) |}
            (Request.method (mo_request options))) as Hnotin.
  { unfold routes_of. cbn [_routes]. rewrite lookup_insert.
    case_decide as Hm.
    - cbn. by apply not_elem_of_app.
    - destruct (_routes (this s) !! Request.method (mo_request options))
        as [l|] eqn:Hl'; cbn; [|apply not_elem_of_nil].
      intros Hin. apply Hwf in Hl'.
      rewrite Forall_forall in Hl'. by apply Hl' in Hin. }
  cbn [this] in Hcalled, Hfound. split.
  - intros Hin. rewrite Forall_forall in Hcalled. by apply Hcalled in Hin.
  - intros Heq. by apply Hfound in Heq.
Qed.

(** X6: routes are kept per method: registering a route of another method
    changes neither the outcome of matching a request nor the match
    callbacks that are called for it. *)
Theorem other_methods_are_not_consulted route s now options :
  Route.method (heap route) <> Request.method (mo_request options) ->
  exists found called,
    findMatchingRoute heap now options s =
      (Normal found,
       {| this := this s; log := log s ++ match_calls now options called |})
    /\ findMatchingRoute heap now options (registerRoute heap route s).2 =
         (Normal found,
          {| this := this (registerRoute heap route s).2;
             log := log s ++ match_calls now options called |}).
Proof.
  intros Hne. rewrite registerRoute_run. cbn [snd].
  rewrite !findMatchingRoute_run. cbn [this _routes log].
  rewrite lookup_insert_ne by done.
  generalize (default [] (_routes (this s) !! Request.method (mo_request options))).
  intros routes.
  destruct (first_match_cases options routes)
    as [Hnone|(pre & r & post & -> & Hpre & Hr)].
  - rewrite !(loop_none heap now options routes) by done.
    eexists _, _. split; reflexivity.
  - rewrite !(loop_found heap now options pre r post) by done.
    eexists _, _. split; reflexivity.
Qed.

(** *** Params *)


(** *** What [handleRequest] returns *)

(** X8: for an http request, [handleRequest] returns [undefined] in two
    cases only: no handler is resolved (no route matches and no default
    handler is set), or the resolved handler itself returns a falsy value,
    which is handed back as it is even when a catch handler is set. *)
Theorem handleRequest_returns_undefined_iff
    now request event s route params s1 result s' :
  is_http new_URL request = true ->
  findMatchingRoute heap now (match_options new_URL request event) s
    = (Normal (route, params), s1) ->
  handleRequest heap new_URL now request event s = (Normal result, s') ->
  result = None <->
  match resolved heap (this s) route with
  | None => True
  | Some (_, h) =>
      handle h now (handler_options new_URL request event params) = Returns None
  end.
Proof.
  intros Hhttp Hfind.
  destruct (findMatchingRoute_state heap now _ _ _ _ Hfind) as [Hthis _].
  destruct (resolved heap (this s) route) as [[callee h]|] eqn:Hres.
  - rewrite (handleRequest_handled heap new_URL _ _ _ _ _ _ _ _ _
               Hhttp Hfind Hthis Hres).
    cbn zeta.
    destruct (handle h now _) as [err|[[|t [v|err]]|]];
      destruct (_catchHandler (this s)) as [c|]; cbn;
      intros [= <- _]; split; done.
  - rewrite (handleRequest_unhandled heap new_URL _ _ _ _ _ _ _
               Hhttp Hfind Hthis Hres).
    by intros [= <- _].
Qed.

(** X9: the catch handler waits for a failure: when the resolved handler
    returns normally and what it returns is not a promise that rejects, the
    only call [handleRequest] makes after matching is that handler's
    [handle]; the catch handler is not called, and the caller gets the
    handler's value, or, behind a catch handler, a promise settling as the
    handler's promise does. *)
Theorem catch_handler_waits_for_failure
    now request event s route params s1 callee h x :
  let options := handler_options new_URL request event params in
  is_http new_URL request = true ->
  findMatchingRoute heap now (match_options new_URL request event) s
    = (Normal (route, params), s1) ->
  resolved heap (this s) route = Some (callee, h) ->
  handle h now options = Returns x ->
  (forall t err, x <> Some (SettlesAt t (Rejected err))) ->
  handleRequest heap new_URL now request event s =
    (Normal match x, _catchHandler (this s) with
            | Some (SettlesAt t st), Some _ => Some (SettlesAt (now `max` t) st)
            | _, _ => x
            end,
     {| this := this s; log := log s1 ++ [(now, CallHandle callee options)] |})
  /\ catch_calls (log s1 ++ [(now, CallHandle callee options)])
     = catch_calls (log s).
Proof.
  intros options Hhttp Hfind Hres Hx Hok.
  destruct (findMatchingRoute_state heap now _ _ _ _ Hfind) as [Hthis Hcount].
  rewrite (handleRequest_handled heap new_URL _ _ _ _ _ _ _ _ _
             Hhttp Hfind Hthis Hres).
  cbn zeta. fold options. rewrite Hx. split.
  - destruct x as [[|t [v|err]]|]; destruct (_catchHandler (this s)); try done;
      by destruct (Hok t err).
  - rewrite catch_calls_app, Hcount,
      (resolved_is_not_catch heap _ _ _ _ _ _ Hres). lia.
Qed.

(** *** The fetch listener *)


(** *** The cache-priming listener *)

Lemma post_calls_app l1 l2 :
  post_calls (l1 ++ l2) = (post_calls l1 + post_calls l2)%nat.
Proof. unfold post_calls. by rewrite filter_app, length_app. Qed.

Lemma post_calls_match_calls now options routes :
  post_calls (match_calls now options routes) = 0%nat.
Proof.
  unfold post_calls, match_calls.
  induction routes as [|r routes IH]; [done|].
  rewrite fmap_cons, filter_cons_False; [done|]. by cbn.
Qed.

Lemma post_calls_catch_calls (tail : list (nat * Call)) :
  Forall (fun c => is_catch_call c = true) tail -> post_calls tail = 0%nat.
Proof.
  unfold post_calls. induction 1 as [|[t c] tail Hc _ IH]; [done|].
  rewrite filter_cons_False; [done|].
  unfold is_catch_call in Hc. unfold is_post_call. cbn in *. by destruct c.
Qed.

Lemma post_calls_handle t callee options :
  post_calls [(t, CallHandle callee options)] = 0%nat.
Proof. reflexivity. Qed.

Lemma post_calls_waitUntil t p : post_calls [(t, CallWaitUntil p)] = 0%nat.
Proof. reflexivity. Qed.

Lemma post_calls_post t port message :
  post_calls [(t, CallPostMessage port message)] = 1%nat.
Proof. reflexivity. Qed.

(** [handleRequest] posts nothing. *)
Lemma handleRequest_post_calls now request event s :
  exists result s',
    handleRequest heap new_URL now request event s = (Normal result, s')
    /\ this s' = this s
    /\ post_calls (log s') = post_calls (log s)
    /\ (is_http new_URL request = false -> result = None /\ s' = s).
Proof.
  destruct (is_http new_URL request) eqn:Hhttp.
  - destruct (findMatchingRoute_total heap now
                (match_options new_URL request event) s)
      as ([route params] & called & Hfind).
    destruct (resolved heap (this s) route) as [[callee h]|] eqn:Hres.
    + destruct (handleRequest_calls heap new_URL _ _ _ _ _ _ _ _ _
                  Hhttp Hfind eq_refl Hres) as (result & tail & -> & Htail & _).
      eexists _, _. split; [reflexivity|]. cbn [this log].
      rewrite !post_calls_app, post_calls_match_calls, post_calls_handle,
        (post_calls_catch_calls tail Htail).
      split; [done|]. split; [lia|done].
    + rewrite (handleRequest_unhandled heap new_URL _ _ _ _ _ _ _
                 Hhttp Hfind eq_refl Hres).
      eexists _, _. split; [reflexivity|]. cbn [this log].
      rewrite post_calls_app, post_calls_match_calls.
      split; [done|]. split; [lia|done].
  - rewrite handleRequest_not_http by done. by eexists _, _.
Qed.

Lemma mapM_handleRequest_post_calls {A} now (f : A -> Request) l s :
  exists results s1,
    mapM (fun a => handleRequest heap new_URL now (f a) None) l s
      = (Normal results, s1)
    /\ this s1 = this s
    /\ post_calls (log s1) = post_calls (log s)
    /\ (Forall (fun a => is_http new_URL (f a) = false) l ->
        results = replicate (length l) None /\ s1 = s).
Proof.
  revert s. induction l as [|a l IH]; intros s; cbn [mapM].
  - by exists [], s.
  - destruct (handleRequest_post_calls now (f a) None s)
      as (x & s' & Hx & Hthis & Hposts & Hnot).
    destruct (IH s') as (xs & s1 & Hxs & Hthis1 & Hposts1 & Hnot1).
    exists (x :: xs), s1. rewrite bind_run, Hx, bind_run, Hxs.
    split; [done|]. split; [congruence|]. split; [congruence|].
    intros [Ha Hl]%Forall_cons.
    destruct (Hnot Ha) as [-> ->]. destruct (Hnot1 Hl) as [-> ->]. done.
Qed.

Lemma listener_run now event d s :
  data event = Some d ->
  type d = "CACHE_URLS" ->
  exists results s1,
    mapM (fun entry =>
            handleRequest heap new_URL now (request_of new_Request entry) None)
         (urlsToCache d) s = (Normal results, s1)
    /\ addCacheListener_listener heap new_URL new_Request now event s =
         match ports event with
         | port :: _ =>
             match Promise_all now results with
             | SettlesAt t (Fulfilled _) =>
                 emit t (CallPostMessage port (VBool true))
             | _ => ret tt
             end
         | [] => ret tt
         end {| this := this s1;
                log := log s1
                       ++ [(now, CallWaitUntil (Promise_all now results))] |}.
Proof.
  intros Hdata Htype.
  destruct (mapM_handleRequest_post_calls now (request_of new_Request)
              (urlsToCache d) s) as (results & s1 & Hmap & _).
  exists results, s1. split; [done|].
  unfold addCacheListener_listener.
  rewrite Hdata, Htype, String.eqb_refl, bind_run.
  match goal with |- context [mapM ?f ?l s] =>
    rewrite (mapM_ext f (fun entry => handleRequest heap new_URL now
                             (request_of new_Request entry) None))
      by (by intros []) end.
  rewrite Hmap, bind_run. cbn [emit].
  destruct (ports event) as [|port ?]; [done|].
  by destruct (Promise_all now results) as [|t [v|err]].
Qed.

Lemma other_messages_are_ignored_aux now event s :
  data event = None
  \/ (exists d, data event = Some d /\ type d <> "CACHE_URLS") ->
  addCacheListener_listener heap new_URL new_Request now event s = (Normal tt, s).
Proof.
  unfold addCacheListener_listener. intros [->|(d & -> & Hd)]; [done|].
  apply String.eqb_neq in Hd. by rewrite Hd.
Qed.

(** A message without data, or whose type is not 'CACHE_URLS', is
    ignored: the listener handles no request, extends no lifetime and
    posts nothing. *)
Theorem other_messages_are_ignored now event s :
  data event = None
  \/ (exists d, data event = Some d /\ type d <> "CACHE_URLS") ->
  addCacheListener_listener heap new_URL new_Request now event s = (Normal tt, s).
Proof. apply other_messages_are_ignored_aux. Qed.

(** X11: the acknowledgement says that the derived requests have settled,
    not that anything was cached: for a message with a reply port that lists
    no URL, or only URLs that are not http, the listener calls no match
    callback and no handler, passes an already fulfilled promise to
    [waitUntil] and posts the acknowledgement in the same tick. *)
Theorem unhandled_urls_are_acknowledged_at_once now event d port rest s :
  data event = Some d ->
  type d = "CACHE_URLS" ->
  ports event = port :: rest ->
  Forall (fun entry => is_http new_URL (request_of new_Request entry) = false)
    (urlsToCache d) ->
  addCacheListener_listener heap new_URL new_Request now event s =
    (Normal tt,
     {| this := this s;
        log := log s
               ++ [(now, CallWaitUntil
                           (SettlesAt now
                              (Fulfilled
                                 (VArray (replicate (length (urlsToCache d))
                                            VUndefined)))));
                   (now, CallPostMessage port (VBool true))] |}).
Proof.
  intros Hdata Htype Hports Hnot.
  destruct (listener_run now event d s Hdata Htype) as (results & s1 & Hmap & ->).
  destruct (mapM_handleRequest_post_calls now (request_of new_Request)
              (urlsToCache d) s) as (results' & s1' & Hmap' & _ & _ & Hall).
  rewrite Hmap in Hmap'. injection Hmap' as <- <-.
  destruct (Hall Hnot) as [-> ->]. rewrite Hports.
  assert (Promise_all now (replicate (length (urlsToCache d)) None)
          = SettlesAt now (Fulfilled (VArray (replicate (length (urlsToCache d))
                                                VUndefined)))) as ->.
  { unfold Promise_all. generalize (length (urlsToCache d)). intros n.
    assert (first_rejection (Promise_resolve now <$> replicate n None) = None
            /\ all_fulfilled (Promise_resolve now <$> replicate n None)
               = Some (match n with O => O | _ => now end,
                       replicate n VUndefined)) as [-> ->].
    { induction n as [|n [IH1 IH2]]; [done|].
      cbn [replicate fmap list_fmap first_rejection all_fulfilled Promise_resolve].
      change (list_fmap _ _ (Promise_resolve now) (replicate n None))
        with (Promise_resolve now <$> replicate n None).
      rewrite IH1, IH2. split; [done|]. f_equal. f_equal.
      destruct n; lia. }
    f_equal. destruct n; lia. }
  unfold emit. cbn [this log]. by rewrite <- app_assoc.
Qed.

(** X12: one message gives at most one acknowledgement, and none when the
    message carries no reply port, whatever the derived requests do. *)
Theorem at_most_one_acknowledgement now event s :
  let s' := (addCacheListener_listener heap new_URL new_Request now event s).2 in
  post_calls (log s) <= post_calls (log s') <= S (post_calls (log s))
  /\ (ports event = [] -> post_calls (log s') = post_calls (log s)).
Proof.
  intros s'. subst s'.
  destruct (data event) as [d|] eqn:Hdata.
  - destruct (decide (type d = "CACHE_URLS")) as [Htype|Htype].
    + destruct (listener_run now event d s Hdata Htype)
        as (results & s1 & Hmap & ->).
      destruct (mapM_handleRequest_post_calls now (request_of new_Request)
                  (urlsToCache d) s) as (results' & s1' & Hmap' & _ & Hposts & _).
      rewrite Hmap in Hmap'. injection Hmap' as <- <-.
      destruct (ports event) as [|port ?].
      * cbn [ret snd log].
        rewrite post_calls_app, Hposts, post_calls_waitUntil. split; lia.
      * destruct (Promise_all now results) as [|t [v|err]];
          unfold emit; cbn [ret snd log];
          rewrite !post_calls_app, Hposts, post_calls_waitUntil,
            ?post_calls_post;
          (split; [lia|done]).
    + rewrite other_messages_are_ignored_aux by (right; by exists d).
      cbn. split; [lia|done].
  - rewrite other_messages_are_ignored_aux by (by left). cbn. split; [lia|done].
Qed.

End MoreProperties.

(** ** The further properties on the concrete worker *)


Lemma route_table_stays_well_formed_scenario :
  table_wf heap (this (registerRoute heap 0%nat fresh).2)
  /\ table_wf heap (this (unregisterRoute heap 0%nat fresh).2).
Proof.
  destruct (route_table_stays_well_formed heap fresh) as [Hfresh Hkept].
  destruct (Hkept Hfresh) as (Hreg & Hunreg & _). split; [apply Hreg|apply Hunreg].
Defined.

Lemma register_then_unregister_restores_routes_scenario :
  let s := after (registerRoutes heap [1]%nat) in
  exists s',
    (registerRoute heap 0%nat;; unregisterRoute heap 0%nat) s = (Normal tt, s')
    /\ (forall m, routes_of (this s') m = routes_of (this s) m).
Proof.
  intros s.
  destruct (register_then_unregister_restores_routes heap 0%nat s)
    as (s' & Hrun & Hroutes & _).
  - cbn. repeat (apply not_elem_of_cons; split; [discriminate|]).
    apply not_elem_of_nil.
  - by exists s'.
Defined.

Lemma reregistered_route_moves_last_scenario :
  let s := after (registerRoutes heap [0; 1]%nat) in
  exists s',
    (registerRoute heap 0%nat;; unregisterRoute heap 0%nat) s = (Normal tt, s')
    /\ routes_of (this s') "GET" = [1; 0]%nat.
Proof.
  intros s.
  destruct (reregistered_route_moves_last heap 0%nat s [] [1%nat])
    as (s' & Hrun & Hroutes & _).
  - reflexivity.
  - apply not_elem_of_nil.
  - by exists s'.
Defined.

Lemma unregistered_route_is_never_matched_scenario :
  let s := after (registerRoutes heap [0; 1]%nat) in
  exists s1 found called,
    unregisterRoute heap 0%nat s = (Normal tt, s1)
    /\ findMatchingRoute heap 0 (match_options new_URL (get "a") None) s1 =
         (Normal found,
          {| this := this s1;
             log := log s1
                    ++ match_calls 0 (match_options new_URL (get "a") None)
                         called |})
    /\ (0%nat ∉ called)
    /\ found.1 <> Some 0%nat.
Proof.
  apply (unregistered_route_is_never_matched heap 0%nat
           (after (registerRoutes heap [0; 1]%nat)) [] [1%nat]).
  - change (after (registerRoutes heap [0; 1]%nat))
      with (registerRoute heap 1%nat (registerRoute heap 0%nat fresh).2).2.
    apply table_wf_registerRoute, table_wf_registerRoute, table_wf_constructor.
  - reflexivity.
  - apply not_elem_of_nil.
  - apply not_elem_of_cons. split; [discriminate|apply not_elem_of_nil].
Defined.

Lemma other_methods_are_not_consulted_scenario :
  let s := after (registerRoutes heap [1]%nat) in
  let options := match_options new_URL (Requests.post "a") None in
  exists found called,
    findMatchingRoute heap 0 options s =
      (Normal found,
       {| this := this s; log := log s ++ match_calls 0 options called |})
    /\ findMatchingRoute heap 0 options (registerRoute heap 0%nat s).2 =
         (Normal found,
          {| this := this (registerRoute heap 0%nat s).2;
             log := log s ++ match_calls 0 options called |}).
Proof.
  apply (other_methods_are_not_consulted heap 0%nat
           (after (registerRoutes heap [1]%nat)) 0
           (match_options new_URL (Requests.post "a") None)).
  discriminate.
Defined.


Lemma handleRequest_returns_undefined_iff_scenario :
  let s := after (registerRoutes heap [0]%nat) in
  let options := handler_options new_URL (get "a") None None in
  Some (SettlesAt 1 (Fulfilled (VStr "A"))) = None <->
  handle (responds "A") 0 options = Returns None.
Proof.
  intros s options.
  apply (handleRequest_returns_undefined_iff heap new_URL 0 (get "a") None s
           (Some 0%nat) None
           (findMatchingRoute heap 0 (match_options new_URL (get "a") None) s).2
           (Some (SettlesAt 1 (Fulfilled (VStr "A"))))
           (handleRequest heap new_URL 0 (get "a") None s).2); reflexivity.
Defined.

Lemma catch_handler_waits_for_failure_scenario :
  let s := after (registerRoutes heap [0]%nat;;
                  setCatchHandler (HandlerObject (responds "fallback"))) in
  let s1 := (findMatchingRoute heap 0 (match_options new_URL (get "a") None) s).2 in
  let options := handler_options new_URL (get "a") None None in
  handleRequest heap new_URL 0 (get "a") None s =
    (Normal (Some (SettlesAt 1 (Fulfilled (VStr "A")))),
     {| this := this s;
        log := log s1 ++ [(0%nat, CallHandle (RouteHandler 0) options)] |})
  /\ catch_calls (log s1 ++ [(0%nat, CallHandle (RouteHandler 0) options)])
     = catch_calls (log s).
Proof.
  intros s s1 options.
  apply (catch_handler_waits_for_failure heap new_URL 0 (get "a") None s
           (Some 0%nat) None s1 (RouteHandler 0) (responds "A")
           (Some (SettlesAt 1 (Fulfilled (VStr "A"))))); try reflexivity.
  discriminate.
Defined.


Lemma unhandled_urls_are_acknowledged_at_once_scenario :
  let s := after (registerRoutes heap [7]%nat) in
  let urls := [EntryString "data:text/plain,hi"] in
  addCacheListener_listener heap new_URL new_Request 0 (cache_urls urls) s =
    (Normal tt,
     {| this := this s;
        log := log s
               ++ [(0%nat, CallWaitUntil
                             (SettlesAt 0 (Fulfilled (VArray [VUndefined]))));
                   (0%nat, CallPostMessage 7%nat (VBool true))] |}).
Proof.
  intros s urls.
  apply (unhandled_urls_are_acknowledged_at_once heap new_URL new_Request 0
           (cache_urls urls) {| type := "CACHE_URLS"; urlsToCache := urls |}
           7%nat [] s); try reflexivity.
  by repeat constructor.
Defined.

Lemma at_most_one_acknowledgement_scenario :
  let s := after (registerRoutes heap [6]%nat) in
  let event := {| data := Some {| type := "CACHE_URLS";
                                  urlsToCache := [EntryString "./x.js"] |};
                  ports := [] |} in
  post_calls
    (log (addCacheListener_listener heap new_URL new_Request 0 event s).2)
  = post_calls (log s).
Proof.
  intros s event.
  apply (proj2 (at_most_one_acknowledgement heap new_URL new_Request 0 event s)).
  reflexivity.
Defined.

(** * Properties of the GenerateSW plugin *)

Section GenerateSWProperties.

Import GenerateSW.

Variable constructor_name : string.
Variable validate : gmap string JsVal -> string + gmap string JsVal.
Variable getManifestEntriesFromCompilation :
  Compilation -> gmap string JsVal -> Exn + JsVal.
Variable populateSWTemplate : gmap string JsVal -> Exn + string.
Variable relativeToOutputPath : Compilation -> JsVal -> Exn + string.
Variable bundle : BundleOptions -> Settlement (list File).

Local Abbreviation handleEmit :=
  (handleEmit constructor_name validate getManifestEntriesFromCompilation
     populateSWTemplate relativeToOutputPath bundle).
Local Abbreviation emit_callback :=
  (emit_callback constructor_name validate getManifestEntriesFromCompilation
     populateSWTemplate relativeToOutputPath bundle).

(** X13: in [propagateWebpackConfig] the plugin's own configuration takes
    precedence: every option the configuration has keeps its value, also
    one that is set to [undefined]; only where [mode] or [sourcemap] is
    missing is it derived from the compiler, [sourcemap] as the truthiness of
    [devtool]; no other option appears. *)
Theorem GenerateSW_config_takes_precedence compiler config key :
  propagateWebpackConfig compiler config !! key =
    match config !! key with
    | Some v => Some v
    | None =>
        if decide (key = "mode") then Some (options_mode compiler)
        else if decide (key = "sourcemap")
             then Some (VBool (truthy (options_devtool compiler)))
             else None
    end.
Proof.
  unfold propagateWebpackConfig, Object_assign.
  rewrite lookup_union. destruct (config !! key) as [v|]; [by rewrite union_Some_l|].
  rewrite (left_id None _), lookup_insert.
  case_decide; [by rewrite decide_True|]. rewrite decide_False by done.
  rewrite lookup_insert. case_decide; [by rewrite decide_True|].
  rewrite decide_False by done. apply lookup_empty.
Qed.

(** X14: the first compiler wins: once [propagateWebpackConfig] has run,
    running it again, with the same or with another compiler, changes
    nothing. *)
Theorem GenerateSW_first_compiler_wins compiler compiler' config :
  propagateWebpackConfig compiler' (propagateWebpackConfig compiler config)
  = propagateWebpackConfig compiler config.
Proof.
  apply map_eq. intros key.
  unfold propagateWebpackConfig at 1. unfold Object_assign.
  rewrite lookup_union.
  destruct (propagateWebpackConfig compiler config !! key) as [v|] eqn:Hkey;
    [by rewrite union_Some_l|].
  rewrite (left_id None _).
  unfold propagateWebpackConfig, Object_assign in Hkey.
  rewrite lookup_union in Hkey.
  apply union_None in Hkey as [_ Hkey].
  rewrite lookup_insert in Hkey. case_decide; [done|].
  rewrite lookup_insert in Hkey. case_decide; [done|].
  by rewrite !lookup_insert_ne.
Qed.

Lemma handleEmit_rejects config compilation err config' compilation' :
  handleEmit config compilation = (Rejects err, config', compilation') ->
  compilation' = compilation.
Proof.
  unfold GenerateSW.handleEmit.
  repeat match goal with
         | |- context [match ?x with _ => _ end] => destruct x
         end; congruence.
Qed.

(** X15: the callback tapped into the emit hook never rejects: a failure
    of [handleEmit], whichever step it comes from, becomes exactly one new
    entry at the end of [compilation.errors], and the assets are then as
    they were; without a failure [compilation.errors] is unchanged. *)
Theorem GenerateSW_failures_end_in_compilation_errors config compilation :
  let run := handleEmit config compilation in
  let hook := emit_callback config compilation in
  (forall err, hook.1.1 <> Rejects err)
  /\ hook.1.2 = run.1.2
  /\ match run.1.1 with
     | Rejects err =>
         hook.1.1 = Resolves (Some (S (length (errors compilation))))
         /\ errors hook.2 = errors compilation ++ [err]
         /\ assets hook.2 = assets compilation
     | Resolves _ =>
         hook.1.1 = Resolves None
         /\ hook.2 = run.2
         /\ errors hook.2 = errors compilation
     | Unsettled => hook.1.1 = Unsettled /\ hook.2 = compilation
     end.
Proof.
  intros run hook. subst run hook. unfold GenerateSW.emit_callback.
  destruct (handleEmit config compilation) as [[[[]|err|] config'] compilation']
    eqn:Hrun; cbn.
  - split; [done|]. split; [done|]. split; [done|]. split; [done|].
    revert Hrun. unfold GenerateSW.handleEmit.
    repeat match goal with
           | |- context [match ?x with _ => _ end] => destruct x
           end; try congruence.
    by intros [= _ <-].
  - apply handleEmit_rejects in Hrun as ->.
    split; [done|]. split; [done|].
    rewrite length_app. cbn. split; [f_equal; f_equal; lia|done].
  - split; [done|]. split; [done|]. split; [done|].
    revert Hrun. unfold GenerateSW.handleEmit.
    repeat match goal with
           | |- context [match ?x with _ => _ end] => destruct x
           end; congruence.
Qed.

(** X16: a configuration that [validate] refuses stops [handleEmit] at
    once: the configuration and the assets stay as they are, and the error
    pushed to [compilation.errors] is a new [Error] whose message names the
    plugin class and ends with the validation message. *)
Theorem GenerateSW_invalid_configuration_is_reported
    config compilation message :
  validate config = inl message ->
  emit_callback config compilation =
    (Resolves (Some (length (errors compilation ++
        [Error (String.append "Please check your "
                 (String.append constructor_name
                    (String.append " plugin configuration:"
                       (String.append LF message))))]))),
     config,
     {| assets := assets compilation;
        errors := errors compilation ++
          [Error (String.append "Please check your "
                   (String.append constructor_name
                      (String.append " plugin configuration:"
                         (String.append LF message))))] |}).
Proof.
  intros Hvalidate.
  unfold GenerateSW.emit_callback, GenerateSW.handleEmit.
  by rewrite Hvalidate.
Qed.

Lemma store_files_lookup files assets key :
  store_files files assets !! key =
    match last_named key files with
    | Some c => Some (RawSource c)
    | None => assets !! key
    end.
Proof.
  revert assets. induction files as [|file files IH]; intros assets; [done|].
  cbn [store_files last_named]. rewrite IH.
  destruct (last_named key files); [done|].
  rewrite lookup_insert. by repeat case_decide.
Qed.

(** X17: when [handleEmit] succeeds, [bundle] was given the [mode] and
    [sourcemap] of the validated configuration, the code made from it by
    [populateSWTemplate] and its [swDest] made relative to the output path;
    every file [bundle] returned is an asset under its name, a later file replacing an earlier one of the
    same name, every other asset is as it was, [compilation.errors] is
    unchanged, and the configuration now holds the manifest entries. *)
Theorem GenerateSW_bundled_files_become_assets
    config compilation config' compilation' :
  handleEmit config compilation = (Resolves tt, config', compilation') ->
  exists options files,
    bundle options = Resolves files
    /\ mode options = prop config' "mode"
    /\ sourcemap options = prop config' "sourcemap"
    /\ populateSWTemplate config' = inr (unbundledCode options)
    /\ relativeToOutputPath compilation (prop config' "swDest")
       = inr (swDest options)
    /\ is_Some (config' !! "manifestEntries")
    /\ errors compilation' = errors compilation
    /\ forall key,
         assets compilation' !! key =
           match last_named key files with
           | Some c => Some (RawSource c)
           | None => assets compilation !! key
           end.
Proof.
  unfold GenerateSW.handleEmit.
  destruct (validate config) as [message|config1]; [done|].
  destruct (getManifestEntriesFromCompilation compilation config1)
    as [err|entries]; [done|].
  destruct (populateSWTemplate _) as [err|code] eqn:Hcode; [done|].
  destruct (relativeToOutputPath _ _) as [err|dest] eqn:Hdest; [done|].
  destruct (bundle _) as [files|err|] eqn:Hbundle; [|done|done].
  intros [= <- <-]. eexists _, files. split; [exact Hbundle|].
  cbn. split; [done|]. split; [done|]. split; [done|]. split; [done|].
  split; [by rewrite lookup_insert_eq|]. split; [done|].
  intros key. apply store_files_lookup.
Qed.

End GenerateSWProperties.

Lemma GenerateSW_invalid_configuration_is_reported_scenario :
  GenerateSW.Scenario.emit_callback {[ "bogus" := VBool true ]}
    GenerateSW.Scenario.compilation =
    (GenerateSW.Resolves (Some 1%nat),
     {[ "bogus" := VBool true ]},
     {| GenerateSW.assets := {[ "main.js" := GenerateSW.OtherSource 0 ]};
        GenerateSW.errors :=
          [GenerateSW.Error
             (String.append "Please check your GenerateSW plugin configuration:"
                (String.append GenerateSW.LF
                   "bogus is not a supported parameter."))] |}).
Proof.
  apply (GenerateSW_invalid_configuration_is_reported "GenerateSW"
           GenerateSW.Scenario.validate
           GenerateSW.Scenario.getManifestEntriesFromCompilation
           GenerateSW.Scenario.populateSWTemplate
           GenerateSW.Scenario.relativeToOutputPath
           GenerateSW.Scenario.bundle
           {[ "bogus" := VBool true ]} GenerateSW.Scenario.compilation
           "bogus is not a supported parameter.").
  reflexivity.
Defined.

Lemma GenerateSW_bundled_files_become_assets_scenario :
  let run := GenerateSW.Scenario.handleEmit
               (GenerateSW.propagateWebpackConfig
                  {| GenerateSW.options_mode := VStr "production";
                     GenerateSW.options_devtool := VBool false |} ∅)
               GenerateSW.Scenario.compilation in
  exists options files,
    GenerateSW.Scenario.bundle options = GenerateSW.Resolves files
    /\ GenerateSW.mode options = VStr "production"
    /\ GenerateSW.assets run.2 !! "service-worker.js"
       = Some (GenerateSW.RawSource "precacheAndRoute([]);")
    /\ GenerateSW.assets run.2 !! "main.js" = Some (GenerateSW.OtherSource 0).
Proof.
  intros run.
  destruct (GenerateSW_bundled_files_become_assets "GenerateSW"
              GenerateSW.Scenario.validate
              GenerateSW.Scenario.getManifestEntriesFromCompilation
              GenerateSW.Scenario.populateSWTemplate
              GenerateSW.Scenario.relativeToOutputPath
              GenerateSW.Scenario.bundle
              (GenerateSW.propagateWebpackConfig
                 {| GenerateSW.options_mode := VStr "production";
                    GenerateSW.options_devtool := VBool false |} ∅)
              GenerateSW.Scenario.compilation run.1.2 run.2)
    as (options & files & Hbundle & Hmode & _ & Hcode & Hdest & _ & _ & Hassets);
    [vm_compute; reflexivity|].
  exists options, files. split; [done|].
  split; [rewrite Hmode; vm_compute; reflexivity|].
  unfold GenerateSW.Scenario.populateSWTemplate in Hcode.
  injection Hcode as Hcode.
  assert (GenerateSW.prop run.1.2 "swDest" = VStr "service-worker.js") as Hprop
    by (vm_compute; reflexivity).
  rewrite Hprop in Hdest. cbn in Hdest. injection Hdest as Hdest.
  unfold GenerateSW.Scenario.bundle in Hbundle. injection Hbundle as <-.
  rewrite !Hassets. cbn [GenerateSW.last_named GenerateSW.name GenerateSW.contents].
  rewrite <- Hcode, <- Hdest. split; reflexivity.
Defined.

(** * Properties of the command dispatcher *)

Section CliProperties.

Import Cli.

Variable errors : string -> string.
Variable defaultConfigFile : string.
Variable process_cwd : string.
Variable path_resolve : string -> string -> string.
Variable path_join : string -> string -> string.
Variable prettyBytes : Z -> string.
Variable Number_toString : Z -> string.
Variable Array_sort : list string -> list string.
Variable ol : string -> string.
Variable runWizard : option (gmap string JsVal) -> Exn + unit.
Variable copyWorkboxLibraries : string -> Exn + string.
Variable readConfig : string -> Exn + Config.
Variable workboxBuild : string -> Config -> Exn + BuildResult.

Local Abbreviation runBuildCommand :=
  (runBuildCommand errors prettyBytes Number_toString Array_sort workboxBuild).
Local Abbreviation app :=
  (app errors defaultConfigFile process_cwd path_resolve path_join prettyBytes
     Number_toString Array_sort ol runWizard copyWorkboxLibraries readConfig
     workboxBuild).

Lemma C_bind_run {A B} (m : C A) (k : A -> C B) effects :
  (m ≫= k) effects = match m effects with
                     | (inr a, effects') => k a effects'
                     | (inl error, effects') => (inl error, effects')
                     end.
Proof. reflexivity. Qed.


(** The dispatcher with an array as input, after the first assertion. *)
Lemma app_input params inputs effects :
  input params = Some inputs ->
  app params effects =
    (assert true (errors "missing-input");;
     let input := inputs in
     let command := default "help" (input !! 0%nat) in
     let option := input !! 1%nat in
     if String.eqb command "wizard" then
       call (RunWizard (flags params)) (runWizard (flags params))
     else if String.eqb command "copyLibraries" then
       assert (from_option nonempty false option)
         (errors "missing-dest-dir-param");;
       let parentDirectory := path_resolve process_cwd (default "" option) in
       dirName ← call (CopyWorkboxLibraries parentDirectory)
                   (copyWorkboxLibraries parentDirectory);
       let fullPath := path_join parentDirectory dirName in
       do (LoggerLog (String.append "The Workbox libraries were copied to "
                        fullPath));;
       do (LoggerLog
             (ol (String.append
                    "Add a call to workbox.setConfig({modulePathPrefix: '...'})"
                    (String.append LF
                       "        to your service worker to use these local libraries."))));;
       do (LoggerLog "See https://goo.gl/Fo9gPX for further documentation.")
     else if String.eqb command "generateSW"
             || String.eqb command "injectManifest" then
       let configPath :=
         path_resolve process_cwd
           (match option with
            | Some o => if nonempty o then o else defaultConfigFile
            | None => defaultConfigFile
            end) in
       config ← try_catch
                  (call (ReadConfig configPath) (readConfig configPath))
                  (fun error =>
                     do (LoggerError (errors "invalid-common-js-module"));;
                     throw error);
       do (LoggerLog (String.append "Using configuration from "
                        (String.append configPath ".")));;
       if from_option
            (fun flags => truthy (default VUndefined (flags !! "watch")))
            false (flags params)
       then
         do (Watch (globPatterns config)
               {| ignoreInitial := false;
                  ignored := if truthy (globIgnores config)
                             then Some (globIgnores config) else None;
                  cwd := if truthy (globDirectory config)
                         then Some (globDirectory config) else None |})
       else runBuildCommand command config false
     else if String.eqb command "help" then
       do ShowHelp
     else
       throw (Error (String.append (errors "unknown-command")
                       (String.append " " command)))) effects.
Proof. unfold Cli.app. by intros ->. Qed.

(** X18: a command the dispatcher does not know is refused with an
    [Error] that names it, before anything is done. *)
Theorem Cli_unknown_command_is_refused params command rest effects :
  input params = Some (command :: rest) ->
  command ∉ ["wizard"; "copyLibraries"; "generateSW"; "injectManifest"; "help"] ->
  app params effects =
    (inl (Error (String.append (errors "unknown-command")
                   (String.append " " command))), effects).
Proof.
  intros Hinput Hunknown. rewrite (app_input _ _ _ Hinput).
  rewrite C_bind_run. cbn [assert ret default lookup list_lookup].
  assert (forall known, known ∈ ["wizard"; "copyLibraries"; "generateSW";
                                 "injectManifest"; "help"] ->
                        String.eqb command known = false) as Hneq.
  { intros known Hknown. apply String.eqb_neq. by intros ->. }
  rewrite !Hneq by (repeat first [by left|right]). reflexivity.
Qed.

(** X19: without a command the dispatcher shows the help, as it does for
    the [help] command, and does nothing else. *)
Theorem Cli_help_is_the_default params inputs effects :
  input params = Some inputs ->
  inputs = [] \/ (exists rest, inputs = "help" :: rest) ->
  app params effects = (inr tt, effects ++ [ShowHelp]).
Proof.
  intros Hinput Hhelp. rewrite (app_input _ _ _ Hinput).
  by destruct Hhelp as [->|[rest ->]].
Qed.

(** X20: [copyLibraries] needs a destination: without one, or with an
    empty one, the assertion fails before anything is copied or logged; and
    when the copy itself fails, its error is passed on and nothing is
    logged. *)
Theorem Cli_copyLibraries_needs_a_destination params rest effects :
  input params = Some ("copyLibraries" :: rest) ->
  match rest with
  | [] | "" :: _ =>
      app params effects =
        (inl (AssertionError (errors "missing-dest-dir-param")), effects)
  | dest :: _ =>
      forall error,
        copyWorkboxLibraries (path_resolve process_cwd dest) = inl error ->
        app params effects =
          (inl error,
           effects ++ [CopyWorkboxLibraries (path_resolve process_cwd dest)])
  end.
Proof.
  intros Hinput. rewrite (app_input _ _ _ Hinput).
  destruct rest as [|dest rest]; [done|].
  destruct dest as [|a dest]; [done|].
  intros error Hcopy. rewrite C_bind_run.
  cbn [assert ret default lookup list_lookup from_option]. unfold id.
  change (String.eqb "copyLibraries" "wizard") with false.
  change (String.eqb "copyLibraries" "copyLibraries") with true.
  cbv iota. rewrite C_bind_run.
  change (nonempty (String a dest)) with true.
  cbn [assert ret]. rewrite C_bind_run. unfold call at 1.
  by rewrite Hcopy.
Qed.

Lemma app_build params command rest effects :
  input params = Some (command :: rest) ->
  command = "generateSW" \/ command = "injectManifest" ->
  let configPath :=
    path_resolve process_cwd (config_file defaultConfigFile (head rest)) in
  app params effects =
    match readConfig configPath with
    | inl error =>
        (inl error,
         effects ++ [ReadConfig configPath;
                     LoggerError (errors "invalid-common-js-module")])
    | inr config =>
        let effects' :=
          effects ++ [ReadConfig configPath;
                      LoggerLog (String.append "Using configuration from "
                                   (String.append configPath "."))] in
        if watching params then
          (inr tt,
           effects' ++ [Watch (globPatterns config)
                          {| ignoreInitial := false;
                             ignored := if truthy (globIgnores config)
                                        then Some (globIgnores config) else None;
                             cwd := if truthy (globDirectory config)
                                    then Some (globDirectory config) else None |}])
        else runBuildCommand command config false effects'
    end.
Proof.
  intros Hinput Hcommand configPath. rewrite (app_input _ _ _ Hinput).
  rewrite C_bind_run. cbn [assert ret].
  assert (String.eqb command "wizard" = false
          /\ String.eqb command "copyLibraries" = false
          /\ String.eqb command "generateSW" || String.eqb command "injectManifest"
             = true) as (Hw & Hc & Hb).
  { by destruct Hcommand as [-> | ->]. }
  change (default "help" ((command :: rest) !! 0%nat)) with command.
  change ((command :: rest) !! 1%nat) with (rest !! 0%nat).
  replace (rest !! 0%nat) with (head rest) by by destruct rest.
  cbv zeta. rewrite Hw, Hc, Hb.
  change (match head rest with
          | Some o => if nonempty o then o else defaultConfigFile
          | None => defaultConfigFile
          end) with (config_file defaultConfigFile (head rest)).
  fold configPath. rewrite C_bind_run.
  unfold try_catch, call at 1.
  destruct (readConfig configPath) as [error|config].
  - rewrite C_bind_run. unfold do, call, throw. by rewrite <- app_assoc.
  - rewrite C_bind_run. unfold do at 1, call at 1.
    change (from_option _ false (flags params)) with (watching params).
    rewrite <- app_assoc. cbn [app].
    destruct (watching params); [|done].
    unfold do, call. reflexivity.
Qed.

(** X21: when the configuration file cannot be read, the build commands
    log the 'invalid-common-js-module' message, pass on the error of the
    reader as it is, and neither build nor watch; the file read is the
    command's argument, or the default file when the argument is missing or
    empty. *)
Theorem Cli_unreadable_configuration_stops_the_build
    params command rest error effects :
  let configPath :=
    path_resolve process_cwd (config_file defaultConfigFile (head rest)) in
  input params = Some (command :: rest) ->
  command = "generateSW" \/ command = "injectManifest" ->
  readConfig configPath = inl error ->
  app params effects =
    (inl error,
     effects ++ [ReadConfig configPath;
                 LoggerError (errors "invalid-common-js-module")]).
Proof.
  intros configPath Hinput Hcommand Hread.
  rewrite (app_build _ _ _ _ Hinput Hcommand). fold configPath.
  by rewrite Hread.
Qed.

(** X22: the [watch] flag decides what a build command does with a
    configuration it could read.  With the flag, the dispatcher only starts
    the watcher, on the configuration's patterns, passing [ignored] and
    [cwd] where [globIgnores] and [globDirectory] are truthy, and it returns
    without building, so that no build failure reaches its caller.  Without
    the flag it runs the build once, and what the build does and throws is
    what the dispatcher does and throws. *)
Theorem Cli_watch_flag_decides params command rest config effects :
  let configPath :=
    path_resolve process_cwd (config_file defaultConfigFile (head rest)) in
  let effects' :=
    effects ++ [ReadConfig configPath;
                LoggerLog (String.append "Using configuration from "
                             (String.append configPath "."))] in
  input params = Some (command :: rest) ->
  command = "generateSW" \/ command = "injectManifest" ->
  readConfig configPath = inr config ->
  app params effects =
    if watching params then
      (inr tt,
       effects' ++ [Watch (globPatterns config)
                      {| ignoreInitial := false;
                         ignored := if truthy (globIgnores config)
                                    then Some (globIgnores config) else None;
                         cwd := if truthy (globDirectory config)
                                then Some (globDirectory config) else None |}])
    else runBuildCommand command config false effects'.
Proof.
  intros configPath effects' Hinput Hcommand Hread.
  rewrite (app_build _ _ _ _ Hinput Hcommand). fold configPath.
  by rewrite Hread.
Qed.

(** X23: a failing build: an error with an [annotate] method (a
    validation error) is replaced by a new [Error] made of the
    'config-validation-failed' message and the annotation, and nothing is
    logged; any other error is logged as 'workbox-build-runtime-error' and
    thrown again as it is.  Nothing else is logged in either case. *)
Theorem Cli_build_failure_is_reported command config watch error effects :
  workboxBuild command config = inl error ->
  runBuildCommand command config watch effects =
    match annotate_of error with
    | Some annotated =>
        (inl (Error (String.append (errors "config-validation-failed")
                       (String.append LF annotated))),
         effects ++ [Build command config])
    | None =>
        (inl error,
         effects ++ [Build command config;
                     LoggerError (errors "workbox-build-runtime-error")])
    end.
Proof.
  intros Hbuild. unfold Cli.runBuildCommand, try_catch.
  rewrite C_bind_run. unfold call at 1. rewrite Hbuild.
  destruct (annotate_of error); [done|].
  rewrite C_bind_run. unfold do, call, throw. by rewrite <- app_assoc.
Qed.


End CliProperties.

(** ** The dispatcher on a concrete command line *)

Lemma Cli_unknown_command_is_refused_scenario :
  Cli.Scenario.app {| Cli.input := Some ["deploy"]; Cli.flags := None |} [] =
    (inl (Cli.Error "unknown-command deploy"), []).
Proof.
  apply (Cli_unknown_command_is_refused Cli.Scenario.errors "workbox-config.js"
           "/app" Cli.Scenario.path_resolve Cli.Scenario.path_resolve
           Cli.Scenario.prettyBytes Cli.Scenario.Number_toString (fun l => l)
           (fun s => s) (fun _ => inr tt) (fun _ => inl (Cli.Foreign 4 None))
           Cli.Scenario.readConfig Cli.Scenario.workboxBuild
           {| Cli.input := Some ["deploy"]; Cli.flags := None |} "deploy" [] []).
  - reflexivity.
  - repeat (apply not_elem_of_cons; split; [discriminate|]).
    apply not_elem_of_nil.
Defined.

Lemma Cli_help_is_the_default_scenario :
  Cli.Scenario.app {| Cli.input := Some []; Cli.flags := None |} [] =
    (inr tt, [Cli.ShowHelp]).
Proof.
  apply (Cli_help_is_the_default Cli.Scenario.errors "workbox-config.js"
           "/app" Cli.Scenario.path_resolve Cli.Scenario.path_resolve
           Cli.Scenario.prettyBytes Cli.Scenario.Number_toString (fun l => l)
           (fun s => s) (fun _ => inr tt) (fun _ => inl (Cli.Foreign 4 None))
           Cli.Scenario.readConfig Cli.Scenario.workboxBuild
           {| Cli.input := Some []; Cli.flags := None |} [] []).
  - reflexivity.
  - by left.
Defined.

Lemma Cli_copyLibraries_needs_a_destination_scenario :
  Cli.Scenario.app {| Cli.input := Some ["copyLibraries"]; Cli.flags := None |} []
    = (inl (Cli.AssertionError "missing-dest-dir-param"), [])
  /\ Cli.Scenario.app {| Cli.input := Some ["copyLibraries"; "third_party"];
                         Cli.flags := None |} []
     = (inl (Cli.Foreign 4 None),
        [Cli.CopyWorkboxLibraries "/app/third_party"]).
Proof.
  split.
  - apply (Cli_copyLibraries_needs_a_destination Cli.Scenario.errors
             "workbox-config.js" "/app" Cli.Scenario.path_resolve
             Cli.Scenario.path_resolve Cli.Scenario.prettyBytes
             Cli.Scenario.Number_toString (fun l => l) (fun s => s)
             (fun _ => inr tt) (fun _ => inl (Cli.Foreign 4 None))
             Cli.Scenario.readConfig Cli.Scenario.workboxBuild
             {| Cli.input := Some ["copyLibraries"]; Cli.flags := None |} [] []).
    reflexivity.
  - apply (Cli_copyLibraries_needs_a_destination Cli.Scenario.errors
             "workbox-config.js" "/app" Cli.Scenario.path_resolve
             Cli.Scenario.path_resolve Cli.Scenario.prettyBytes
             Cli.Scenario.Number_toString (fun l => l) (fun s => s)
             (fun _ => inr tt) (fun _ => inl (Cli.Foreign 4 None))
             Cli.Scenario.readConfig Cli.Scenario.workboxBuild
             {| Cli.input := Some ["copyLibraries"; "third_party"];
                Cli.flags := None |} ["third_party"] []); reflexivity.
Defined.

Lemma Cli_unreadable_configuration_stops_the_build_scenario :
  Cli.Scenario.app {| Cli.input := Some ["generateSW"; "missing.js"];
                      Cli.flags := None |} []
  = (inl (Cli.Foreign 1 None),
     [Cli.ReadConfig "/app/missing.js";
      Cli.LoggerError "invalid-common-js-module"]).
Proof.
  apply (Cli_unreadable_configuration_stops_the_build Cli.Scenario.errors
           "workbox-config.js" "/app" Cli.Scenario.path_resolve
           Cli.Scenario.path_resolve Cli.Scenario.prettyBytes
           Cli.Scenario.Number_toString (fun l => l) (fun s => s)
           (fun _ => inr tt) (fun _ => inl (Cli.Foreign 4 None))
           Cli.Scenario.readConfig Cli.Scenario.workboxBuild
           {| Cli.input := Some ["generateSW"; "missing.js"];
              Cli.flags := None |} "generateSW" ["missing.js"]
           (Cli.Foreign 1 None) []).
  - reflexivity.
  - by left.
  - reflexivity.
Defined.

Lemma Cli_watch_flag_decides_scenario :
  Cli.Scenario.app {| Cli.input := Some ["injectManifest"];
                      Cli.flags := Some {[ "watch" := VBool true ]} |} []
  = (inr tt,
     [Cli.ReadConfig "/app/workbox-config.js";
      Cli.LoggerLog "Using configuration from /app/workbox-config.js."]
     ++ [Cli.Watch (VArray [VStr "**/*.js"])
           {| Cli.ignoreInitial := false; Cli.ignored := None;
              Cli.cwd := Some (VStr "build") |}]).
Proof.
  exact (Cli_watch_flag_decides Cli.Scenario.errors
           "workbox-config.js" "/app" Cli.Scenario.path_resolve
           Cli.Scenario.path_resolve Cli.Scenario.prettyBytes
           Cli.Scenario.Number_toString (fun l => l) (fun s => s)
           (fun _ => inr tt) (fun _ => inl (Cli.Foreign 4 None))
           Cli.Scenario.readConfig Cli.Scenario.workboxBuild
           {| Cli.input := Some ["injectManifest"];
              Cli.flags := Some {[ "watch" := VBool true ]} |}
           "injectManifest" [] Cli.Scenario.config []
           eq_refl (or_intror eq_refl) eq_refl).
Defined.

Lemma Cli_build_failure_is_reported_scenario :
  let config := {| Cli.swDest := ""; Cli.globPatterns := VUndefined;
                   Cli.globIgnores := VUndefined;
                   Cli.globDirectory := VUndefined |} in
  Cli.Scenario.runBuildCommand "generateSW" config false [] =
    (inl (Cli.Error (String.append "config-validation-failed"
                       (String.append Cli.LF "swDest is required"))),
     [Cli.Build "generateSW" config]).
Proof.
  intros config.
  apply (Cli_build_failure_is_reported Cli.Scenario.errors
           Cli.Scenario.prettyBytes Cli.Scenario.Number_toString (fun l => l)
           Cli.Scenario.workboxBuild "generateSW" config false
           (Cli.Foreign 3 (Some "swDest is required")) []).
  reflexivity.
Defined.

